(** * UAV waypoint planner: the flight-path generator of [services/flightMath.ts]

    A shallow embedding of the three exported functions of
    [src/services/flightMath.ts]

      - [getPointAtDistanceAndBearing]  (spherical direct geodesic problem),
      - [calculateBearing]              (initial compass bearing),
      - [generateSimulationPath]        (orbit / segment expansion),

    of the records of [src/types.ts] they work on, of the handlers of the
    editor ([App.tsx] and the sidebar) and of the timeline and the preview
    ring of [CesiumView.tsx].

    Numbers.  A JavaScript [number] is modelled as a real number of the
    Standard Library ([R]): a finite number, without NaN, infinities or
    signed zeros.  [Math.sin], [Math.cos], [Math.asin] and [Math.PI] are the
    functions and the constant of the same names of [Reals]; [Math.atan2],
    [Math.ceil], [Math.max], the remainder operator [%] and the logical [||]
    are written out below.

    The generator comes twice.  The first embedding is a function on
    lists with exact arithmetic: it fixes which samples are computed, from
    which fields and in which order, and the properties proved of it are
    about data flow, flags, counts and ranges.  The second, [Engine], runs
    the same source on a heap of arrays of bounded length, with the
    rounding of the doubles as a parameter where the number of samples
    depends on it; what a call throws, what two calls share and how many
    samples an orbit gets are proved of this one.

    Errors.  A property access on [undefined] throws a [TypeError]; array
    reads therefore return an [option] and the generator returns a
    [result].  In [Engine] a push onto a full array throws a
    [RangeError]. *)

From Stdlib Require Import String Reals Lra Lia ZArith Bool Arith List.
From Stdlib Require Import Zfloor RNsatz Permutation.
From Equations Require Import Equations.
Import ListNotations.

Local Open Scope R_scope.

(* ===================================================================== *)
(** * JavaScript numeric primitives over the reals                        *)
(* ===================================================================== *)

Module JS.

(** Outcome of a computation that may throw a [TypeError]. *)
Inductive result (A : Type) : Type :=
| Ok (a : A)
| TypeError.
Arguments Ok {A} a.
Arguments TypeError {A}.

Definition bind {A B} (r : result A) (k : A -> result B) : result B :=
  match r with
  | Ok a => k a
  | TypeError => TypeError
  end.

(** [Math.max(a, b)]. *)
Definition Math_max (a b : R) : R := Rmax a b.

(** [Math.ceil(x)]: the least integer that is not below [x]. *)
Definition Math_ceil (x : R) : R := IZR (Zceil x).

(** Truncation towards zero, the rounding used by the remainder. *)
Definition trunc (x : R) : Z :=
  if Rle_dec 0 x then Zfloor x else Zceil x.

(** [a % n]: the remainder has the sign of the dividend. *)
Definition rem (a n : R) : R := a - n * IZR (trunc (a / n)).

(** [a || b] on numbers: [0] is the only falsy real. *)
Definition or (a b : R) : R := if Req_dec_T a 0 then b else a.

(** [Math.atan2(y, x)]: the angle of the point [(x, y)], in (-PI, PI]. *)
Definition Math_atan2 (y x : R) : R :=
  if Rlt_dec 0 x then atan (y / x)
  else if Rlt_dec x 0 then
         if Rle_dec 0 y then atan (y / x) + PI else atan (y / x) - PI
  else if Rlt_dec 0 y then PI / 2
  else if Rlt_dec y 0 then - (PI / 2)
  else 0.

(** [arr[i]]: reading past the end gives [undefined]. *)
Definition index {A} (arr : list A) (i : nat) : option A := nth_error arr i.

(** [arr[arr.length - 1]]: [undefined] on the empty array. *)
Definition last_elem {A} (arr : list A) : option A :=
  match arr with
  | [] => None
  | _ => index arr (length arr - 1)
  end.

End JS.

(** Cesium's degree/radian conversions multiply by a constant factor. *)
Module Cesium.
Definition RADIANS_PER_DEGREE : R := PI / 180.
Definition DEGREES_PER_RADIAN : R := 180 / PI.
Definition toRadians (degrees : R) : R := degrees * RADIANS_PER_DEGREE.
Definition toDegrees (radians : R) : R := radians * DEGREES_PER_RADIAN.
End Cesium.

(* ===================================================================== *)
(** * Data model ([src/types.ts])                                         *)
(* ===================================================================== *)

Inductive WaypointType : Type := NORMAL | ORBIT.

Definition WaypointType_eqb (a b : WaypointType) : bool :=
  match a, b with
  | NORMAL, NORMAL | ORBIT, ORBIT => true
  | _, _ => false
  end.

Module Waypoint.
Record t : Type := mk {
  id : string;
  lat : R;
  lon : R;
  alt : R;
  type : WaypointType;
  orbitRadius : R;
  orbitPoints : R;
  orbitLaps : R;
  orbitSpeed : R
}.
End Waypoint.

Module SimulatedPoint.
Record t : Type := mk {
  lat : R;
  lon : R;
  alt : R;
  heading : R;
  isOrbit : bool
}.
End SimulatedPoint.

Definition DEFAULT_SPEED : R := 10.

(** The object literal [{ lat, lon }] returned by the projection. *)
Module LatLon.
Record t : Type := mk { lat : R; lon : R }.
End LatLon.

(* ===================================================================== *)
(** * Geodesic primitives                                                 *)
(* ===================================================================== *)

Definition EARTH_RADIUS : R := 6378137.

Definition getPointAtDistanceAndBearing
           (lat lon distMeters bearingDegrees : R) : LatLon.t :=
  let R_ := EARTH_RADIUS in
  let d := distMeters in
  let brng := Cesium.toRadians bearingDegrees in
  let lat1 := Cesium.toRadians lat in
  let lon1 := Cesium.toRadians lon in
  let lat2 := asin (sin lat1 * cos (d / R_)
                    + cos lat1 * sin (d / R_) * cos brng) in
  let lon2 := lon1 + JS.Math_atan2 (sin brng * sin (d / R_) * cos lat1)
                                   (cos (d / R_) - sin lat1 * sin lat2) in
  LatLon.mk (Cesium.toDegrees lat2) (Cesium.toDegrees lon2).

Definition calculateBearing (startLat startLon destLat destLon : R) : R :=
  let startLatRad := Cesium.toRadians startLat in
  let startLonRad := Cesium.toRadians startLon in
  let destLatRad := Cesium.toRadians destLat in
  let destLonRad := Cesium.toRadians destLon in
  let y := sin (destLonRad - startLonRad) * cos destLatRad in
  let x := cos startLatRad * sin destLatRad
           - sin startLatRad * cos destLatRad * cos (destLonRad - startLonRad) in
  let brng := JS.Math_atan2 y x in
  JS.rem (Cesium.toDegrees brng + 360) 360.

(* ===================================================================== *)
(** * The path generator                                                  *)
(* ===================================================================== *)

Definition SAMPLE_INTERVAL_SECONDS : R := 1.

(** The divisor of the lap time: the speed with its floor of 0.1. *)
Definition lapDivisor (speed : R) : R := JS.Math_max (1 / 10) speed.

(** Steps 1-3 of the orbit branch: the samples of one lap. *)
Definition pointsPerLap (orbitRadius speed : R) : R :=
  let circumference := 2 * PI * orbitRadius in
  let timePerLap := circumference / lapDivisor speed in
  let pointsPerLap := JS.Math_ceil (timePerLap / SAMPLE_INTERVAL_SECONDS) in
  JS.Math_max pointsPerLap 24.

(** The body of the inner loop: the sample pushed at step [j]. *)
Definition orbitSample (current : Waypoint.t) (angleStep : R) (j : nat)
  : SimulatedPoint.t :=
  let angle := INR j * angleStep in
  let circlePoint :=
    getPointAtDistanceAndBearing (Waypoint.lat current) (Waypoint.lon current)
                                 (Waypoint.orbitRadius current) angle in
  let headingToCenter :=
    calculateBearing (LatLon.lat circlePoint) (LatLon.lon circlePoint)
                     (Waypoint.lat current) (Waypoint.lon current) in
  SimulatedPoint.mk (LatLon.lat circlePoint) (LatLon.lon circlePoint)
                    (Waypoint.alt current) headingToCenter true.

(** [for (let j = ...; j <= totalSteps; j++) path.push(...)], entered at
    step [j].  The loop ends because the integers are unbounded in [R]. *)
Equations? orbitLoop (current : Waypoint.t) (angleStep totalSteps : R)
          (j : nat) (path : list SimulatedPoint.t)
  : list SimulatedPoint.t
  by wf (Z.to_nat (up totalSteps - Z.of_nat j)) lt :=
  orbitLoop current angleStep totalSteps j path
    with Rle_dec (INR j) totalSteps => {
    | left _ :=
        orbitLoop current angleStep totalSteps (S j)
                  (path ++ [orbitSample current angleStep j]);
    | right _ := path }.
Proof.
  destruct (archimed totalSteps) as [Hup _].
  assert (Hlt : (Z.of_nat j < up totalSteps)%Z).
  { apply lt_IZR. rewrite <- INR_IZR_INZ. lra. }
  lia.
Qed.

(** One iteration of the outer loop: waypoint [i] is expanded onto [path]. *)
Definition iteration (waypoints : list Waypoint.t) (speed : R) (i : nat)
           (path : list SimulatedPoint.t)
  : JS.result (list SimulatedPoint.t) :=
  match JS.index waypoints i with
  | None => JS.TypeError
  | Some current =>
      let next := JS.index waypoints (i + 1) in
      if WaypointType_eqb (Waypoint.type current) ORBIT then
        let pointsPerLap := pointsPerLap (Waypoint.orbitRadius current) speed in
        let laps := JS.or (Waypoint.orbitLaps current) 1 in
        let angleStep := 360 / pointsPerLap in
        let totalSteps := pointsPerLap * laps in
        JS.Ok (orbitLoop current angleStep totalSteps 0 path)
      else
        let heading :=
          match next with
          | Some next =>
              calculateBearing (Waypoint.lat current) (Waypoint.lon current)
                               (Waypoint.lat next) (Waypoint.lon next)
          | None =>
              if (0 <? i)%nat then
                match JS.last_elem path with
                | Some prev => SimulatedPoint.heading prev
                | None => 0
                end
              else 0
          end in
        JS.Ok (path ++ [SimulatedPoint.mk (Waypoint.lat current)
                                          (Waypoint.lon current)
                                          (Waypoint.alt current)
                                          heading false])
  end.

(** [for (let i = ...; i < waypoints.length; i++)], entered at index [i]. *)
Equations? waypointLoop (waypoints : list Waypoint.t) (speed : R) (i : nat)
          (path : list SimulatedPoint.t)
  : JS.result (list SimulatedPoint.t)
  by wf (length waypoints - i)%nat lt :=
  waypointLoop waypoints speed i path with lt_dec i (length waypoints) => {
    | left _ with iteration waypoints speed i path => {
        | JS.Ok path' := waypointLoop waypoints speed (S i) path';
        | JS.TypeError := JS.TypeError };
    | right _ := JS.Ok path }.
Proof. lia. Qed.

Definition generateSimulationPath (waypoints : list Waypoint.t) (speed : R)
  : JS.result (list SimulatedPoint.t) :=
  if (length waypoints <? 1)%nat then JS.Ok []
  else waypointLoop waypoints speed 0 [].

(** The call with the speed argument left out. *)
Definition generateSimulationPath_default (waypoints : list Waypoint.t)
  : JS.result (list SimulatedPoint.t) :=
  generateSimulationPath waypoints DEFAULT_SPEED.

(** The path held when the outer loop reaches index [i]: the effect of the
    iterations [0 .. i-1] on the empty array. *)
Fixpoint pathBefore (waypoints : list Waypoint.t) (speed : R) (i : nat)
  : JS.result (list SimulatedPoint.t) :=
  match i with
  | O => JS.Ok []
  | S k => JS.bind (pathBefore waypoints speed k) (iteration waypoints speed k)
  end.

(** Number of passes of a loop [for (j = 0; j <= totalSteps; j++)]. *)
Definition stepCount (totalSteps : R) : nat := Z.to_nat (Zfloor totalSteps + 1).

(** The sample pushed for a plain waypoint. *)
Definition plainSample (current : Waypoint.t) (heading : R) : SimulatedPoint.t :=
  SimulatedPoint.mk (Waypoint.lat current) (Waypoint.lon current)
                    (Waypoint.alt current) heading false.

(** The waypoint [w] with its [orbitLaps] field set to [laps]. *)
Definition withLaps (w : Waypoint.t) (laps : R) : Waypoint.t :=
  Waypoint.mk (Waypoint.id w) (Waypoint.lat w) (Waypoint.lon w) (Waypoint.alt w)
              (Waypoint.type w) (Waypoint.orbitRadius w) (Waypoint.orbitPoints w)
              laps (Waypoint.orbitSpeed w).

(** Two waypoints the generator cannot tell apart: it reads the position,
    the kind, the radius and the lap count after its default is applied. *)
Definition sameFlight (w w' : Waypoint.t) : Prop :=
  Waypoint.lat w = Waypoint.lat w' /\
  Waypoint.lon w = Waypoint.lon w' /\
  Waypoint.alt w = Waypoint.alt w' /\
  Waypoint.type w = Waypoint.type w' /\
  Waypoint.orbitRadius w = Waypoint.orbitRadius w' /\
  JS.or (Waypoint.orbitLaps w) 1 = JS.or (Waypoint.orbitLaps w') 1.

(** An orbit waypoint whose lap count is negative. *)
Definition negativeOrbit (w : Waypoint.t) : Prop :=
  Waypoint.type w = ORBIT /\ Waypoint.orbitLaps w < 0.

(** What every sample of an orbit around [center] looks like. *)
Definition facesCenter (center : Waypoint.t) (p : SimulatedPoint.t) : Prop :=
  SimulatedPoint.isOrbit p = true /\
  SimulatedPoint.heading p =
  calculateBearing (SimulatedPoint.lat p) (SimulatedPoint.lon p)
                   (Waypoint.lat center) (Waypoint.lon center).

(** Project a point from the origin, then take the bearing from the origin
    to the projected point. *)
Definition roundTrip (lat lon d b : R) : R :=
  let p := getPointAtDistanceAndBearing lat lon d b in
  calculateBearing lat lon (LatLon.lat p) (LatLon.lon p).

(** [b mod 360], the representative of [b] in [0, 360). *)
Definition mod360 (b : R) : R := b - 360 * IZR (Zfloor (b / 360)).

(** The sine of the projected latitude, from the sines and cosines of the
    start latitude ([sp], [cp]), of the angular distance ([sd], [cd]) and
    the cosine of the bearing ([ct]): the argument of [Math.asin] in
    [getPointAtDistanceAndBearing]. *)
Definition destSin (sp cp sd cd ct : R) : R := sp * cd + cp * sd * ct.

(** Where a waypoint and a sample are: latitude, longitude, altitude. *)
Definition waypointPosition (w : Waypoint.t) : R * R * R :=
  (Waypoint.lat w, Waypoint.lon w, Waypoint.alt w).

Definition samplePosition (p : SimulatedPoint.t) : R * R * R :=
  (SimulatedPoint.lat p, SimulatedPoint.lon p, SimulatedPoint.alt p).

(** The test of the orbit branch, [current.type === WaypointType.ORBIT]. *)
Definition isOrbitWaypoint (w : Waypoint.t) : bool :=
  WaypointType_eqb (Waypoint.type w) ORBIT.

(* ===================================================================== *)
(** * The editor state and its handlers ([App.tsx], [Sidebar])            *)
(* ===================================================================== *)

Definition DEFAULT_ALTITUDE : R := 50.
Definition DEFAULT_RADIUS : R := 30.
Definition DEFAULT_ORBIT_POINTS : R := 36.
Definition DEFAULT_ORBIT_LAPS : R := 1.

(** [Partial<Waypoint>]: the keys an update object carries. *)
Module Partial.
Record t : Type := mk {
  id : option string;
  lat : option R;
  lon : option R;
  alt : option R;
  type : option WaypointType;
  orbitRadius : option R;
  orbitPoints : option R;
  orbitLaps : option R;
  orbitSpeed : option R
}.
End Partial.

(** One key of the spread [{ ...wp, ...updates }]. *)
Definition override {A} (update : option A) (old : A) : A :=
  match update with
  | Some v => v
  | None => old
  end.

(** [{ ...wp, ...updates }]. *)
Definition spread (wp : Waypoint.t) (updates : Partial.t) : Waypoint.t :=
  Waypoint.mk (override (Partial.id updates) (Waypoint.id wp))
              (override (Partial.lat updates) (Waypoint.lat wp))
              (override (Partial.lon updates) (Waypoint.lon wp))
              (override (Partial.alt updates) (Waypoint.alt wp))
              (override (Partial.type updates) (Waypoint.type wp))
              (override (Partial.orbitRadius updates) (Waypoint.orbitRadius wp))
              (override (Partial.orbitPoints updates) (Waypoint.orbitPoints wp))
              (override (Partial.orbitLaps updates) (Waypoint.orbitLaps wp))
              (override (Partial.orbitSpeed updates) (Waypoint.orbitSpeed wp)).

(** The React state of [App]. *)
Module AppState.
Record t : Type := mk {
  waypoints : list Waypoint.t;
  selectedId : option string;
  globalSpeed : R;
  isSimulating : bool;
  simulatedPath : list SimulatedPoint.t
}.
End AppState.

Definition setWaypoints (st : AppState.t) (wps : list Waypoint.t) : AppState.t :=
  AppState.mk wps (AppState.selectedId st) (AppState.globalSpeed st)
              (AppState.isSimulating st) (AppState.simulatedPath st).

Definition setSelectedId (st : AppState.t) (id : option string) : AppState.t :=
  AppState.mk (AppState.waypoints st) id (AppState.globalSpeed st)
              (AppState.isSimulating st) (AppState.simulatedPath st).

Definition setIsSimulating (st : AppState.t) (b : bool) : AppState.t :=
  AppState.mk (AppState.waypoints st) (AppState.selectedId st)
              (AppState.globalSpeed st) b (AppState.simulatedPath st).

Definition setSimulatedPath (st : AppState.t) (path : list SimulatedPoint.t)
  : AppState.t :=
  AppState.mk (AppState.waypoints st) (AppState.selectedId st)
              (AppState.globalSpeed st) (AppState.isSimulating st) path.

(** [selectedId === id], with [null] for no selection. *)
Definition selected_is (selectedId : option string) (id : string) : bool :=
  match selectedId with
  | Some s => String.eqb s id
  | None => false
  end.

(** [Sidebar]: [updateWaypoint(id, updates)]. *)
Definition updateWaypoint (st : AppState.t) (id : string) (updates : Partial.t)
  : AppState.t :=
  setWaypoints st
    (map (fun wp => if String.eqb (Waypoint.id wp) id then spread wp updates else wp)
         (AppState.waypoints st)).

(** [Sidebar]: [removeWaypoint(e, id)]. *)
Definition removeWaypoint (st : AppState.t) (id : string) : AppState.t :=
  let st' := setWaypoints st
               (filter (fun wp => negb (String.eqb (Waypoint.id wp) id))
                       (AppState.waypoints st)) in
  if selected_is (AppState.selectedId st) id then setSelectedId st' None else st'.

(** The two values of the parameter [direction: -1 | 1]. *)
Inductive Direction : Type := Up | Down.

Definition Direction_value (d : Direction) : Z :=
  match d with
  | Up => (-1)%Z
  | Down => 1%Z
  end.

(** Where [Array.prototype.splice] starts for the argument [start]:
    a negative argument counts from the end, and the result is kept
    inside [0, length]. *)
Definition spliceStart (len : nat) (start : Z) : nat :=
  if (start <? 0)%Z then Z.to_nat (Z.max (Z.of_nat len + start) 0)
  else Z.to_nat (Z.min start (Z.of_nat len)).

(** [arr.splice(start, 1)]: the removed elements and the array left. *)
Definition spliceDelete1 {A} (arr : list A) (start : Z) : list A * list A :=
  let s := spliceStart (length arr) start in
  (firstn 1 (skipn s arr), firstn s arr ++ skipn (S s) arr).

(** [arr.splice(start, 0, item)]: the array after the insertion. *)
Definition spliceInsert {A} (arr : list A) (start : Z) (item : A) : list A :=
  let s := spliceStart (length arr) start in
  firstn s arr ++ item :: skipn s arr.

(** [Sidebar]: [moveWaypoint(e, index, direction)].  [None] is the early
    return, which leaves the state alone; otherwise the array handed to
    [setWaypoints], whose slots hold a waypoint or [undefined]. *)
Definition moveWaypoint (waypoints : list Waypoint.t) (index : Z)
           (direction : Direction) : option (list (option Waypoint.t)) :=
  let newIndex := (index + Direction_value direction)%Z in
  if ((newIndex <? 0) || (newIndex >=? Z.of_nat (length waypoints)))%Z then None
  else
    let newWaypoints := map Some waypoints in
    let (removed, newWaypoints1) := spliceDelete1 newWaypoints index in
    let moved := match removed with
                 | m :: _ => m
                 | [] => None
                 end in
    Some (spliceInsert newWaypoints1 newIndex moved).

(** [Sidebar]: [waypoints.find(wp => wp.id === selectedId)]. *)
Definition selectedWP (st : AppState.t) : option Waypoint.t :=
  find (fun wp => selected_is (AppState.selectedId st) (Waypoint.id wp))
       (AppState.waypoints st).

(** [App]: [handleMapClick].  The fresh identifier of [crypto.randomUUID]
    and the latitude and longitude (radians) of the clicked point, as
    [Cesium.Cartographic.fromCartesian] gives them, are arguments. *)
Definition handleMapClick (st : AppState.t) (uuid : string)
           (latitude longitude : R) : AppState.t :=
  if AppState.isSimulating st then st
  else
    let newWaypoint :=
      Waypoint.mk uuid (Cesium.toDegrees latitude) (Cesium.toDegrees longitude)
                  DEFAULT_ALTITUDE NORMAL DEFAULT_RADIUS DEFAULT_ORBIT_POINTS
                  DEFAULT_ORBIT_LAPS (AppState.globalSpeed st) in
    setSelectedId (setWaypoints st (AppState.waypoints st ++ [newWaypoint]))
                  (Some uuid).

(** [App]: [handleRunSimulation].  The boolean tells whether the alert
    asking for waypoints was shown. *)
Definition handleRunSimulation (st : AppState.t) : JS.result (AppState.t * bool) :=
  if AppState.isSimulating st then
    JS.Ok (setSimulatedPath (setIsSimulating st false) [], false)
  else
    JS.bind (generateSimulationPath (AppState.waypoints st) (AppState.globalSpeed st))
            (fun path =>
               if (length path =? 0)%nat then JS.Ok (st, true)
               else JS.Ok (setIsSimulating (setSimulatedPath st path) true, false)).

(** [App]: the callback [onSimulationEnd]. *)
Definition onSimulationEnd (st : AppState.t) : AppState.t :=
  setIsSimulating st false.

(** The selection is empty or names a waypoint of the mission. *)
Definition selectionValid (st : AppState.t) : Prop :=
  match AppState.selectedId st with
  | None => True
  | Some s => exists wp, In wp (AppState.waypoints st) /\ Waypoint.id wp = s
  end.

(** While simulating there is a path to fly. *)
Definition simulationReady (st : AppState.t) : Prop :=
  AppState.isSimulating st = true -> AppState.simulatedPath st <> [].

(* ===================================================================== *)
(** * The animation timeline and the orbit preview ([CesiumView])         *)
(* ===================================================================== *)

(** What [useMemo] hands to the clock and the marker.  Times are seconds
    after [startTime] (the value of [Cesium.JulianDate.now()] at the
    call); the samples are listed in the order of the [addSample] calls. *)
Module Timeline.
Record t (Cartesian3 : Type) : Type := mk {
  positionSamples : list (R * Cartesian3);
  rotationSamples : list (R * R);
  stopSeconds : R
}.
Arguments mk {Cartesian3} _ _ _.
Arguments positionSamples {Cartesian3} _.
Arguments rotationSamples {Cartesian3} _.
Arguments stopSeconds {Cartesian3} _.
End Timeline.

(** The variables of the sampling loop. *)
Module AnimState.
Record t (Cartesian3 : Type) : Type := mk {
  currentSeconds : R;
  posProp : list (R * Cartesian3);
  rotProp : list (R * R)
}.
Arguments mk {Cartesian3} _ _ _.
Arguments currentSeconds {Cartesian3} _.
Arguments posProp {Cartesian3} _.
Arguments rotProp {Cartesian3} _.
End AnimState.

Section CesiumView.

(** Cesium's [Cartesian3], with [Cartesian3.fromDegrees(lon, lat, alt)] and
    [Cartesian3.distance]. *)
Variable Cartesian3 : Type.
Variable fromDegrees : R -> R -> R -> Cartesian3.
Variable distance : Cartesian3 -> Cartesian3 -> R.

Definition samplePoint (pt : SimulatedPoint.t) : Cartesian3 :=
  fromDegrees (SimulatedPoint.lon pt) (SimulatedPoint.lat pt) (SimulatedPoint.alt pt).

(** The time a leg takes: never less than 0.05 s. *)
Definition legSeconds (SPEED : R) (prevPt pt : SimulatedPoint.t) : R :=
  let dist := distance (samplePoint prevPt) (samplePoint pt) in
  let duration := dist / SPEED in
  JS.Math_max (5 / 100) duration.

(** The body of the sampling loop, for the point of index [i]. *)
Definition animationStep (simulatedPath : list SimulatedPoint.t) (SPEED : R)
           (i : nat) (s : AnimState.t Cartesian3)
  : JS.result (AnimState.t Cartesian3) :=
  match JS.index simulatedPath i with
  | None => JS.TypeError
  | Some pt =>
      let position := samplePoint pt in
      let billboardRot := - Cesium.toRadians (SimulatedPoint.heading pt) in
      if (0 <? i)%nat then
        match JS.index simulatedPath (i - 1) with
        | None => JS.TypeError
        | Some prevPt =>
            let currentSeconds :=
              AnimState.currentSeconds s + legSeconds SPEED prevPt pt in
            let rotProp :=
              if negb (SimulatedPoint.isOrbit pt)
                 && negb (SimulatedPoint.isOrbit prevPt)
              then
                let prevRot := - Cesium.toRadians (SimulatedPoint.heading prevPt) in
                AnimState.rotProp s ++ [(currentSeconds - 2 / 10, prevRot)]
              else AnimState.rotProp s in
            JS.Ok (AnimState.mk currentSeconds
                                (AnimState.posProp s ++ [(currentSeconds, position)])
                                (rotProp ++ [(currentSeconds, billboardRot)]))
        end
      else
        JS.Ok (AnimState.mk (AnimState.currentSeconds s)
                            (AnimState.posProp s
                             ++ [(AnimState.currentSeconds s, position)])
                            (AnimState.rotProp s
                             ++ [(AnimState.currentSeconds s, billboardRot)]))
  end.

(** [for (let i = ...; i < simulatedPath.length; i++)], entered at [i]. *)
Equations? animationLoop (simulatedPath : list SimulatedPoint.t) (SPEED : R)
          (i : nat) (s : AnimState.t Cartesian3)
  : JS.result (AnimState.t Cartesian3)
  by wf (length simulatedPath - i)%nat lt :=
  animationLoop simulatedPath SPEED i s with lt_dec i (length simulatedPath) => {
    | left _ with animationStep simulatedPath SPEED i s => {
        | JS.Ok s' := animationLoop simulatedPath SPEED (S i) s';
        | JS.TypeError := JS.TypeError };
    | right _ := JS.Ok s }.
Proof. lia. Qed.

(** The animation properties: [None] stands for the four [undefined]. *)
Definition animation (isSimulating : bool) (simulatedPath : list SimulatedPoint.t)
           (flightSpeed : R) : JS.result (option (Timeline.t Cartesian3)) :=
  if negb isSimulating || (length simulatedPath <? 2)%nat then JS.Ok None
  else
    let SPEED := JS.Math_max (1 / 10) flightSpeed in
    JS.bind (animationLoop simulatedPath SPEED 0 (AnimState.mk 0 [] []))
            (fun s => JS.Ok (Some (Timeline.mk (AnimState.posProp s)
                                               (AnimState.rotProp s)
                                               (AnimState.currentSeconds s)))).

(** The samples the loop adds for the points [rest] that follow the point
    [prevPt], reached at [cur] seconds: the position samples (with the
    point still in degrees) ... *)
Fixpoint positionsFrom (SPEED : R) (prevPt : SimulatedPoint.t) (cur : R)
         (rest : list SimulatedPoint.t) : list (R * SimulatedPoint.t) :=
  match rest with
  | [] => []
  | pt :: rest' =>
      let t := cur + legSeconds SPEED prevPt pt in
      (t, pt) :: positionsFrom SPEED pt t rest'
  end.

(** ... and the rotation samples. *)
Fixpoint rotationsFrom (SPEED : R) (prevPt : SimulatedPoint.t) (cur : R)
         (rest : list SimulatedPoint.t) : list (R * R) :=
  match rest with
  | [] => []
  | pt :: rest' =>
      let t := cur + legSeconds SPEED prevPt pt in
      (if negb (SimulatedPoint.isOrbit pt) && negb (SimulatedPoint.isOrbit prevPt)
       then [(t - 2 / 10, - Cesium.toRadians (SimulatedPoint.heading prevPt))]
       else [])
      ++ (t, - Cesium.toRadians (SimulatedPoint.heading pt))
      :: rotationsFrom SPEED pt t rest'
  end.

(** A timed point, placed in Cesium's frame. *)
Definition place (sample : R * SimulatedPoint.t) : R * Cartesian3 :=
  (fst sample, samplePoint (snd sample)).

(** The time the marker arrives at the last of the points [rest]. *)
Fixpoint arrivalFrom (SPEED : R) (prevPt : SimulatedPoint.t) (cur : R)
         (rest : list SimulatedPoint.t) : R :=
  match rest with
  | [] => cur
  | pt :: rest' => arrivalFrom SPEED pt (cur + legSeconds SPEED prevPt pt) rest'
  end.

(** Legs between two samples that both lack the orbit flag. *)
Fixpoint plainLegs (prevPt : SimulatedPoint.t) (rest : list SimulatedPoint.t)
  : nat :=
  match rest with
  | [] => 0
  | pt :: rest' =>
      (if negb (SimulatedPoint.isOrbit pt) && negb (SimulatedPoint.isOrbit prevPt)
       then 1 else 0) + plainLegs pt rest'
  end.

(** The call [Cesium.Cartesian3.fromDegrees(lon, lat, alt)] on a triple. *)
Definition toCartesian (vertex : R * R * R) : Cartesian3 :=
  let '(lon, lat, alt) := vertex in fromDegrees lon lat alt.

(** A vertex of the ring drawn around an orbit waypoint, at [i] degrees. *)
Definition previewVertex (wp : Waypoint.t) (i : nat) : R * R * R :=
  let rad := Cesium.toRadians (INR i) in
  let latRad := Cesium.toRadians (Waypoint.lat wp) in
  let dLat := (Waypoint.orbitRadius wp * cos rad) / 111320 in
  let dLon := (Waypoint.orbitRadius wp * sin rad) / (111320 * cos latRad) in
  (Waypoint.lon wp + dLon, Waypoint.lat wp + dLat, Waypoint.alt wp).

(** How far the counter of the preview loop is from its end. *)
Definition previewSteps (i : nat) : nat := 361 - i.
Arguments previewSteps : simpl never.

(** [for (let i = ...; i <= 360; i += 5) points.push(...)], entered at [i]. *)
Equations? previewLoop (wp : Waypoint.t) (i : nat) (points : list Cartesian3)
  : list Cartesian3 by wf (previewSteps i) lt :=
  previewLoop wp i points with le_dec i 360 => {
    | left _ :=
        previewLoop wp (i + 5)
                    (points ++ [let '(lon, lat, alt) := previewVertex wp i in
                                fromDegrees lon lat alt]);
    | right _ := points }.
Proof. unfold previewSteps. lia. Qed.

Definition orbitPreview (wp : Waypoint.t) : list Cartesian3 :=
  previewLoop wp 0 [].

End CesiumView.

(** A stand-in for Cesium's frame: the coordinates as they are, and the
    distance along the longitude. *)
Definition flatFromDegrees (lon lat alt : R) : R * R * R := (lon, lat, alt).
Definition flatDistance (p q : R * R * R) : R := Rabs (fst (fst q) - fst (fst p)).

(* ===================================================================== *)
(** * The generator on the JavaScript heap                                *)
(* ===================================================================== *)

(** The same source, run on a machine that has what the JavaScript engine
    has and the functions above leave out:

      - a heap of array objects; an array holds at most 2^32 - 1 elements
        and [push] onto a full array throws a [RangeError];
      - a wall clock and the state of the random generator, which code
        may read;
      - rounding, where it decides how many samples an orbit gets: [fl]
        stands for the rounding of a result to a double, [Math.PI] and the
        literal [0.1] are rounded constants.

    The samples themselves are computed by the functions above. *)
Module Engine.

Inductive Exception : Type := TypeError | RangeError.

(** How an evaluation ends. *)
Inductive Completion (A : Type) : Type :=
| Normal (a : A)
| Throw (e : Exception).
Arguments Normal {A} a.
Arguments Throw {A} e.

(** The greatest length of an array, 2^32 - 1. *)
Definition MAX_ARRAY_LENGTH : Z := 4294967295.

(** The state a call runs in: what [Date.now()] would read, the state
    behind [Math.random()], and the array objects, addressed by their
    position in the heap. *)
Record World : Type := mkWorld {
  clock : R;
  entropy : nat;
  heap : list (list SimulatedPoint.t)
}.

Definition setHeap (w : World) (h : list (list SimulatedPoint.t)) : World :=
  mkWorld (clock w) (entropy w) h.

(** A computation: from a world to a completion and the world it leaves. *)
Definition M (A : Type) : Type := World -> Completion A * World.

Definition ret {A} (a : A) : M A := fun w => (Normal a, w).

Definition bind {A B} (m : M A) (k : A -> M B) : M B :=
  fun w =>
    match m w with
    | (Normal a, w') => k a w'
    | (Throw e, w') => (Throw e, w')
    end.

(** The heap with the array at [ref] replaced. *)
Definition store (ref : nat) (arr : list SimulatedPoint.t)
           (h : list (list SimulatedPoint.t)) : list (list SimulatedPoint.t) :=
  firstn ref h ++ arr :: skipn (S ref) h.

(** [[]]: a new, empty array object. *)
Definition newArray : M nat :=
  fun w => (Normal (length (heap w)), setHeap w (heap w ++ [[]])).

(** [path.push(x)]. *)
Definition push (path : nat) (x : SimulatedPoint.t) : M unit :=
  fun w =>
    match nth_error (heap w) path with
    | None => (Throw TypeError, w)
    | Some arr =>
        if (Z.of_nat (length arr) <? MAX_ARRAY_LENGTH)%Z
        then (Normal tt, setHeap w (store path (arr ++ [x]) (heap w)))
        else (Throw RangeError, w)
    end.

(** [path[path.length - 1]]. *)
Definition lastOf (path : nat) : M (option SimulatedPoint.t) :=
  fun w =>
    match nth_error (heap w) path with
    | None => (Throw TypeError, w)
    | Some arr => (Normal (JS.last_elem arr), w)
    end.

Section Generator.

(** Rounding to a double. *)
Variable fl : R -> R.

Definition Math_PI : R := fl PI.

Definition lapDivisor (speed : R) : R := JS.Math_max (fl (1 / 10)) speed.

Definition pointsPerLap (orbitRadius speed : R) : R :=
  let circumference := fl (fl (2 * Math_PI) * orbitRadius) in
  let timePerLap := fl (circumference / lapDivisor speed) in
  let pointsPerLap := JS.Math_ceil (fl (timePerLap / SAMPLE_INTERVAL_SECONDS)) in
  JS.Math_max pointsPerLap 24.

(** [for (let j = ...; j <= totalSteps; j++) path.push(...)], entered at
    step [j]. *)
Equations? orbitLoop (current : Waypoint.t) (angleStep totalSteps : R)
          (j : nat) (path : nat) (w : World)
  : Completion unit * World
  by wf (Z.to_nat (up totalSteps - Z.of_nat j)) lt :=
  orbitLoop current angleStep totalSteps j path w
    with Rle_dec (INR j) totalSteps => {
    | left _ with push path (orbitSample current angleStep j) w => {
        | (Normal _, w') := orbitLoop current angleStep totalSteps (S j) path w';
        | (Throw e, w') := (Throw e, w') };
    | right _ := (Normal tt, w) }.
Proof.
  destruct (archimed totalSteps) as [Hup _].
  assert (Hlt : (Z.of_nat j < up totalSteps)%Z).
  { apply lt_IZR. rewrite <- INR_IZR_INZ. lra. }
  lia.
Qed.

(** One iteration of the outer loop, on the array [path]. *)
Definition iteration (waypoints : list Waypoint.t) (speed : R) (i : nat)
           (path : nat) : M unit :=
  fun w =>
    match JS.index waypoints i with
    | None => (Throw TypeError, w)
    | Some current =>
        let next := JS.index waypoints (i + 1) in
        if WaypointType_eqb (Waypoint.type current) ORBIT then
          let pointsPerLap := pointsPerLap (Waypoint.orbitRadius current) speed in
          let laps := JS.or (Waypoint.orbitLaps current) 1 in
          let angleStep := 360 / pointsPerLap in
          let totalSteps := fl (pointsPerLap * laps) in
          orbitLoop current angleStep totalSteps 0 path w
        else
          match next with
          | Some next =>
              push path
                   (plainSample current
                      (calculateBearing (Waypoint.lat current) (Waypoint.lon current)
                                        (Waypoint.lat next) (Waypoint.lon next))) w
          | None =>
              if (0 <? i)%nat then
                bind (lastOf path)
                     (fun prev =>
                        push path
                             (plainSample current
                                match prev with
                                | Some prev => SimulatedPoint.heading prev
                                | None => 0
                                end)) w
              else push path (plainSample current 0) w
          end
    end.

(** [for (let i = ...; i < waypoints.length; i++)], entered at index [i]. *)
Equations? waypointLoop (waypoints : list Waypoint.t) (speed : R) (i : nat)
          (path : nat) (w : World)
  : Completion unit * World
  by wf (length waypoints - i)%nat lt :=
  waypointLoop waypoints speed i path w with lt_dec i (length waypoints) => {
    | left _ with iteration waypoints speed i path w => {
        | (Normal _, w') := waypointLoop waypoints speed (S i) path w';
        | (Throw e, w') := (Throw e, w') };
    | right _ := (Normal tt, w) }.
Proof. lia. Qed.

(** The call: the result is the reference of the array returned. *)
Definition generateSimulationPath (waypoints : list Waypoint.t) (speed : R)
  : M nat :=
  if (length waypoints <? 1)%nat then newArray
  else bind newArray
            (fun path => bind (waypointLoop waypoints speed 0 path)
                              (fun _ => ret path)).

(** The samples iteration [i] pushes, one by one, when the array holds
    [pre]. *)
Definition segment (waypoints : list Waypoint.t) (speed : R) (i : nat)
           (pre : list SimulatedPoint.t) : list SimulatedPoint.t :=
  match JS.index waypoints i with
  | None => []
  | Some current =>
      if WaypointType_eqb (Waypoint.type current) ORBIT then
        let ppl := pointsPerLap (Waypoint.orbitRadius current) speed in
        map (orbitSample current (360 / ppl))
            (seq 0 (stepCount (fl (ppl * JS.or (Waypoint.orbitLaps current) 1))))
      else
        [plainSample current
           match JS.index waypoints (i + 1) with
           | Some next =>
               calculateBearing (Waypoint.lat current) (Waypoint.lon current)
                                (Waypoint.lat next) (Waypoint.lon next)
           | None =>
               if (0 <? i)%nat then
                 match JS.last_elem pre with
                 | Some prev => SimulatedPoint.heading prev
                 | None => 0
                 end
               else 0
           end]
  end.

End Generator.

(** Pushing the samples [xs] in turn onto an array that holds [arr]: how
    it ends and what the array holds then. *)
Fixpoint pushAll (arr xs : list SimulatedPoint.t)
  : Completion unit * list SimulatedPoint.t :=
  match xs with
  | [] => (Normal tt, arr)
  | x :: xs' =>
      if (Z.of_nat (length arr) <? MAX_ARRAY_LENGTH)%Z
      then pushAll (arr ++ [x]) xs'
      else (Throw RangeError, arr)
  end.

(** [n] iterations of the outer loop from index [i] on, on an array that
    holds [arr]. *)
Fixpoint runFrom (fl : R -> R) (waypoints : list Waypoint.t) (speed : R)
         (n i : nat) (arr : list SimulatedPoint.t)
  : Completion unit * list SimulatedPoint.t :=
  match n with
  | O => (Normal tt, arr)
  | S n' =>
      match pushAll arr (segment fl waypoints speed i arr) with
      | (Normal _, arr') => runFrom fl waypoints speed n' (S i) arr'
      | (Throw e, arr') => (Throw e, arr')
      end
  end.

(** The completion of a call that allocated the array [ref]. *)
Definition returning (ref : nat) (c : Completion unit) : Completion nat :=
  match c with
  | Normal _ => Normal ref
  | Throw e => Throw e
  end.

(** What IEEE rounding to nearest is assumed to do: it keeps the order,
    it leaves the integers up to 2^53 as they are, and the double 0.1 is
    positive. *)
Definition Rounding (fl : R -> R) : Prop :=
  (forall x y, x <= y -> fl x <= fl y) /\
  (forall z : Z, (Z.abs z <= 2 ^ 53)%Z -> fl (IZR z) = IZR z) /\
  0 < fl (1 / 10).

(** Exact arithmetic is one such rounding. *)
Definition exact (x : R) : R := x.

End Engine.

(** Sample missions, after the scenarios of the specification. *)
Module Scenario.
(** An orbit of radius 30 m and one lap around (0, 0). *)
Definition orbit30 : Waypoint.t :=
  Waypoint.mk "orbit30" 0 0 10 ORBIT 30 36 1 10.
(** The same orbit with the lap count left at zero. *)
Definition orbit30_nolaps : Waypoint.t :=
  Waypoint.mk "orbit30" 0 0 10 ORBIT 30 36 0 10.
(** The same orbit with a negative lap count. *)
Definition orbit30_back : Waypoint.t :=
  Waypoint.mk "orbit30" 0 0 10 ORBIT 30 36 (-1) 10.
Definition start : Waypoint.t :=
  Waypoint.mk "start" 0 0 10 NORMAL 30 36 1 10.
Definition east : Waypoint.t :=
  Waypoint.mk "east" 0 1 10 NORMAL 30 36 1 10.
Definition north : Waypoint.t :=
  Waypoint.mk "north" 1 1 10 NORMAL 30 36 1 10.
(** An editor with three waypoints, the second one selected. *)
Definition editing : AppState.t :=
  AppState.mk [start; east; north] (Some "east"%string) 10 false [].
(** An update of the two legacy fields. *)
Definition legacyUpdate : Partial.t :=
  Partial.mk None None None None None None (Some 72) None (Some 5).
(** An update of the altitude. *)
Definition climb : Partial.t :=
  Partial.mk None None None (Some 120) None None None None None.
(** An orbit of radius 0 with a million million laps. *)
Definition marathon : Waypoint.t :=
  Waypoint.mk "marathon" 0 0 10 ORBIT 0 36 1000000000000 10.
(** An orbit of radius 0 with two hundred million laps. *)
Definition endurance : Waypoint.t :=
  Waypoint.mk "endurance" 0 0 10 ORBIT 0 36 200000000 10.
(** A machine whose heap is empty. *)
Definition boot : Engine.World := Engine.mkWorld 0 0 [].
(** A machine that has run for a while. *)
Definition busy : Engine.World :=
  Engine.mkWorld 1730000000000 42 [[SimulatedPoint.mk 1 2 3 4 false]; []].
(** An orbit of radius 0 and two laps. *)
Definition hover : Waypoint.t :=
  Waypoint.mk "hover" 45 10 20 ORBIT 0 36 2 10.
End Scenario.


(* ===================================================================== *)
(** * Numeric primitives: basic facts                                     *)
(* ===================================================================== *)

Section Primitives.

Lemma Math_max_24 (x : R) : 24 <= JS.Math_max x 24.
Proof. unfold JS.Math_max. apply Rmax_r. Qed.

Lemma Math_max_ceil_24 (x : R) :
  JS.Math_max (JS.Math_ceil x) 24 = IZR (Z.max (Zceil x) 24).
Proof.
  unfold JS.Math_max, JS.Math_ceil.
  destruct (Z.le_ge_cases (Zceil x) 24) as [H | H].
  - rewrite Z.max_r by assumption. apply Rmax_right. now apply IZR_le.
  - rewrite Z.max_l by lia. apply Rmax_left. apply IZR_le. lia.
Qed.

Lemma lapDivisor_pos (speed : R) : 1 / 10 <= lapDivisor speed.
Proof. unfold lapDivisor, JS.Math_max. apply Rmax_l. Qed.

Lemma lapDivisor_clamped (speed : R) : speed <= 1 / 10 -> lapDivisor speed = 1 / 10.
Proof. intros H. unfold lapDivisor, JS.Math_max. now apply Rmax_left. Qed.

Lemma pointsPerLap_Z (r speed : R) :
  pointsPerLap r speed =
  IZR (Z.max (Zceil (2 * PI * r / lapDivisor speed / SAMPLE_INTERVAL_SECONDS)) 24).
Proof. unfold pointsPerLap. apply Math_max_ceil_24. Qed.

Lemma pointsPerLap_ge_24 (r speed : R) : 24 <= pointsPerLap r speed.
Proof. unfold pointsPerLap. apply Math_max_24. Qed.

Lemma or_zero (b : R) : JS.or 0 b = b.
Proof. unfold JS.or. destruct (Req_dec_T 0 0); [reflexivity | contradiction]. Qed.

Lemma or_nonzero (a b : R) : a <> 0 -> JS.or a b = a.
Proof. intros H. unfold JS.or. destruct (Req_dec_T a 0); [contradiction | reflexivity]. Qed.

Lemma stepCount_neg (t : R) : t < 0 -> stepCount t = O.
Proof.
  intros H. unfold stepCount.
  destruct (Zfloor_bound t) as [Hlo _].
  assert (Hz : (Zfloor t < 0)%Z) by (apply lt_IZR; lra).
  lia.
Qed.

Lemma stepCount_IZR (n : Z) : (0 <= n)%Z -> stepCount (IZR n) = Z.to_nat (n + 1).
Proof. intros _. unfold stepCount. now rewrite ZfloorZ. Qed.

Lemma stepCount_below (t : R) (k : nat) : (k < stepCount t)%nat -> INR k <= t.
Proof.
  unfold stepCount. intros H.
  destruct (Zfloor_bound t) as [Hlo _].
  assert (Hz : (Z.of_nat k <= Zfloor t)%Z) by lia.
  apply IZR_le in Hz. rewrite <- INR_IZR_INZ in Hz. lra.
Qed.

Lemma stepCount_above (t : R) : ~ INR (stepCount t) <= t.
Proof.
  unfold stepCount. intros H.
  destruct (Zfloor_bound t) as [_ Hhi].
  rewrite INR_IZR_INZ in H.
  assert (Hz : (Zfloor t + 1 <= Z.of_nat (Z.to_nat (Zfloor t + 1)))%Z) by lia.
  apply IZR_le in Hz. rewrite plus_IZR in Hz. lra.
Qed.

End Primitives.

(* ===================================================================== *)
(** * The inner loop                                                      *)
(* ===================================================================== *)

Section InnerLoop.

Variable current : Waypoint.t.
Variables angleStep totalSteps : R.

Lemma orbitLoop_enter (j : nat) (path : list SimulatedPoint.t) :
  INR j <= totalSteps ->
  orbitLoop current angleStep totalSteps j path =
  orbitLoop current angleStep totalSteps (S j)
            (path ++ [orbitSample current angleStep j]).
Proof.
  intros H. rewrite orbitLoop_equation_1.
  destruct (Rle_dec (INR j) totalSteps); [reflexivity | contradiction].
Qed.

Lemma orbitLoop_exit (j : nat) (path : list SimulatedPoint.t) :
  ~ INR j <= totalSteps ->
  orbitLoop current angleStep totalSteps j path = path.
Proof.
  intros H. rewrite orbitLoop_equation_1.
  destruct (Rle_dec (INR j) totalSteps); [contradiction | reflexivity].
Qed.

(** [n] passes from step [j] on push the samples [j .. j+n-1]. *)
Lemma orbitLoop_passes (n : nat) :
  forall (j : nat) (path : list SimulatedPoint.t),
    (forall k, (k < n)%nat -> INR (j + k) <= totalSteps) ->
    ~ INR (j + n) <= totalSteps ->
    orbitLoop current angleStep totalSteps j path =
    path ++ map (orbitSample current angleStep) (seq j n).
Proof.
  induction n as [| n IH]; intros j path Hin Hout.
  - rewrite Nat.add_0_r in Hout. rewrite orbitLoop_exit by assumption.
    simpl. now rewrite app_nil_r.
  - rewrite orbitLoop_enter.
    + rewrite IH.
      * simpl. now rewrite <- app_assoc.
      * intros k Hk. replace (S j + k)%nat with (j + S k)%nat by lia.
        apply Hin. lia.
      * replace (S j + n)%nat with (j + S n)%nat by lia. assumption.
    + specialize (Hin O (Nat.lt_0_succ n)). now rewrite Nat.add_0_r in Hin.
Qed.

(** The whole loop, from step 0. *)
Lemma orbitLoop_closed (path : list SimulatedPoint.t) :
  orbitLoop current angleStep totalSteps 0 path =
  path ++ map (orbitSample current angleStep) (seq 0 (stepCount totalSteps)).
Proof.
  apply orbitLoop_passes.
  - intros k Hk. simpl. now apply stepCount_below.
  - simpl. apply stepCount_above.
Qed.

End InnerLoop.

(* ===================================================================== *)
(** * The outer loop                                                      *)
(* ===================================================================== *)

Section OuterLoop.

Variable waypoints : list Waypoint.t.
Variable speed : R.

(** The segment an orbit waypoint contributes. *)
Lemma iteration_orbit (i : nat) (w : Waypoint.t) (path : list SimulatedPoint.t) :
  JS.index waypoints i = Some w ->
  Waypoint.type w = ORBIT ->
  iteration waypoints speed i path =
  JS.Ok (path ++
         map (orbitSample w (360 / pointsPerLap (Waypoint.orbitRadius w) speed))
             (seq 0 (stepCount (pointsPerLap (Waypoint.orbitRadius w) speed
                                * JS.or (Waypoint.orbitLaps w) 1)))).
Proof.
  intros Hidx Hty. unfold iteration. rewrite Hidx, Hty. simpl.
  now rewrite orbitLoop_closed.
Qed.

(** The sample a plain waypoint with a successor contributes. *)
Lemma iteration_normal_next (i : nat) (w next : Waypoint.t)
      (path : list SimulatedPoint.t) :
  JS.index waypoints i = Some w ->
  Waypoint.type w = NORMAL ->
  JS.index waypoints (i + 1) = Some next ->
  iteration waypoints speed i path =
  JS.Ok (path ++ [plainSample w
                    (calculateBearing (Waypoint.lat w) (Waypoint.lon w)
                                      (Waypoint.lat next) (Waypoint.lon next))]).
Proof.
  intros Hidx Hty Hnext. unfold iteration. now rewrite Hidx, Hty, Hnext.
Qed.

(** The sample a plain waypoint without successor contributes. *)
Lemma iteration_normal_last (i : nat) (w : Waypoint.t)
      (path : list SimulatedPoint.t) :
  JS.index waypoints i = Some w ->
  Waypoint.type w = NORMAL ->
  JS.index waypoints (i + 1) = None ->
  iteration waypoints speed i path =
  JS.Ok (path ++ [plainSample w
                    (if (0 <? i)%nat then
                       match JS.last_elem path with
                       | Some prev => SimulatedPoint.heading prev
                       | None => 0
                       end
                     else 0)]).
Proof.
  intros Hidx Hty Hnext. unfold iteration. now rewrite Hidx, Hty, Hnext.
Qed.

(** Inside the array an iteration never throws, and it only appends. *)
Lemma iteration_appends (i : nat) (path : list SimulatedPoint.t) :
  (i < length waypoints)%nat ->
  exists seg, iteration waypoints speed i path = JS.Ok (path ++ seg).
Proof.
  intros Hi.
  destruct (JS.index waypoints i) as [w |] eqn:Hidx.
  - destruct (Waypoint.type w) eqn:Hty.
    + destruct (JS.index waypoints (i + 1)) as [next |] eqn:Hnext.
      * eexists. eapply iteration_normal_next; eassumption.
      * eexists. eapply iteration_normal_last; eassumption.
    + eexists. eapply iteration_orbit; eassumption.
  - apply nth_error_None in Hidx. lia.
Qed.

Lemma waypointLoop_enter (i : nat) (path : list SimulatedPoint.t) :
  (i < length waypoints)%nat ->
  waypointLoop waypoints speed i path =
  JS.bind (iteration waypoints speed i path)
          (waypointLoop waypoints speed (S i)).
Proof.
  intros Hi. rewrite waypointLoop_equation_1.
  destruct (lt_dec i (length waypoints)); [| contradiction].
  simpl. now destruct (iteration waypoints speed i path).
Qed.

Lemma waypointLoop_exit (i : nat) (path : list SimulatedPoint.t) :
  ~ (i < length waypoints)%nat ->
  waypointLoop waypoints speed i path = JS.Ok path.
Proof.
  intros Hi. rewrite waypointLoop_equation_1.
  destruct (lt_dec i (length waypoints)); [contradiction | reflexivity].
Qed.

(** Hoare-style rule for the outer loop: an invariant kept by every
    iteration holds of the returned path, and the loop does not throw. *)
Lemma waypointLoop_invariant (Inv : nat -> list SimulatedPoint.t -> Prop) :
  (forall i path, (i < length waypoints)%nat -> Inv i path ->
                  exists path', iteration waypoints speed i path = JS.Ok path'
                                /\ Inv (S i) path') ->
  forall n i path,
    (i + n = length waypoints)%nat -> Inv i path ->
    exists out, waypointLoop waypoints speed i path = JS.Ok out
                /\ Inv (length waypoints) out.
Proof.
  intros Hstep. induction n as [| n IH]; intros i path Hlen Hinv.
  - exists path. split.
    + apply waypointLoop_exit. lia.
    + now replace (length waypoints) with i by lia.
  - destruct (Hstep i path) as [path' [Hit Hinv']]; [lia | assumption |].
    rewrite waypointLoop_enter by lia. rewrite Hit. simpl.
    apply IH; [lia | assumption].
Qed.

(** The loop entered at [i] with the path of the first [i] iterations
    returns the path of all of them. *)
Lemma waypointLoop_pathBefore :
  forall n i path,
    (i + n = length waypoints)%nat ->
    pathBefore waypoints speed i = JS.Ok path ->
    waypointLoop waypoints speed i path =
    pathBefore waypoints speed (length waypoints).
Proof.
  induction n as [| n IH]; intros i path Hlen Hpre.
  - rewrite waypointLoop_exit by lia.
    replace (length waypoints) with i by lia. now rewrite Hpre.
  - rewrite waypointLoop_enter by lia.
    destruct (iteration_appends i path) as [seg Hit]; [lia |].
    rewrite Hit. simpl. apply IH; [lia |].
    simpl. now rewrite Hpre.
Qed.

Lemma generateSimulationPath_pathBefore :
  generateSimulationPath waypoints speed =
  pathBefore waypoints speed (length waypoints).
Proof.
  unfold generateSimulationPath.
  destruct (length waypoints <? 1)%nat eqn:Hlen.
  - apply Nat.ltb_lt in Hlen.
    now replace (length waypoints) with O by lia.
  - now apply waypointLoop_pathBefore with (n := length waypoints).
Qed.

(** The path only grows from one index to a later one. *)
Lemma pathBefore_grows (n i : nat) (pre : list SimulatedPoint.t) :
  (i + n <= length waypoints)%nat ->
  pathBefore waypoints speed i = JS.Ok pre ->
  exists post, pathBefore waypoints speed (i + n) = JS.Ok (pre ++ post).
Proof.
  induction n as [| n IH]; intros Hlen Hpre.
  - exists []. now rewrite Nat.add_0_r, app_nil_r.
  - destruct IH as [post Hpost]; [lia | assumption |].
    destruct (iteration_appends (i + n) (pre ++ post)) as [seg Hit]; [lia |].
    exists (post ++ seg).
    replace (i + S n)%nat with (S (i + n)) by lia.
    simpl. rewrite Hpost. simpl. now rewrite Hit, app_assoc.
Qed.

Lemma pathBefore_defined (i : nat) :
  (i <= length waypoints)%nat ->
  exists pre, pathBefore waypoints speed i = JS.Ok pre.
Proof.
  intros Hi.
  destruct (pathBefore_grows i O []) as [post Hpost]; [lia | reflexivity |].
  now exists post.
Qed.

(** Where the segment of waypoint [i] sits in the returned path. *)
Lemma segment_in_path (i : nat) (pre seg : list SimulatedPoint.t) :
  (i < length waypoints)%nat ->
  pathBefore waypoints speed i = JS.Ok pre ->
  iteration waypoints speed i pre = JS.Ok (pre ++ seg) ->
  exists post,
    generateSimulationPath waypoints speed = JS.Ok (pre ++ seg ++ post).
Proof.
  intros Hi Hpre Hit.
  assert (Hnext : pathBefore waypoints speed (S i) = JS.Ok (pre ++ seg)).
  { simpl. now rewrite Hpre. }
  destruct (pathBefore_grows (length waypoints - S i) (S i) (pre ++ seg))
    as [post Hpost]; [lia | assumption |].
  exists post. rewrite generateSimulationPath_pathBefore.
  replace (S i + (length waypoints - S i))%nat with (length waypoints)
    in Hpost by lia.
  now rewrite Hpost, app_assoc.
Qed.

End OuterLoop.

(* ===================================================================== *)
(** * Orbit expansion                                                     *)
(* ===================================================================== *)

Lemma index_in_bounds {A} (arr : list A) (i : nat) (a : A) :
  JS.index arr i = Some a -> (i < length arr)%nat.
Proof. intros H. apply nth_error_Some. unfold JS.index in H. congruence. Qed.

(** The segment of an orbit waypoint, placed in the returned path. *)
Lemma orbit_segment (waypoints : list Waypoint.t) (speed : R) (i : nat)
      (w : Waypoint.t) :
  JS.index waypoints i = Some w ->
  Waypoint.type w = ORBIT ->
  let ppl := pointsPerLap (Waypoint.orbitRadius w) speed in
  let seg := map (orbitSample w (360 / ppl))
                 (seq 0 (stepCount (ppl * JS.or (Waypoint.orbitLaps w) 1))) in
  exists pre post,
    pathBefore waypoints speed i = JS.Ok pre /\
    iteration waypoints speed i pre = JS.Ok (pre ++ seg) /\
    generateSimulationPath waypoints speed = JS.Ok (pre ++ seg ++ post).
Proof.
  intros Hidx Hty ppl seg.
  pose proof (index_in_bounds _ _ _ Hidx) as Hi.
  destruct (pathBefore_defined waypoints speed i) as [pre Hpre]; [lia |].
  assert (Hit : iteration waypoints speed i pre = JS.Ok (pre ++ seg)).
  { now apply iteration_orbit. }
  destruct (segment_in_path waypoints speed i pre seg Hi Hpre Hit) as [post Hpost].
  now exists pre, post.
Qed.

(** C2. Every sample of an orbit waypoint carries the orbit flag and the
    bearing from the sample back to the centre of the orbit. *)
Theorem orbit_heading_to_center (waypoints : list Waypoint.t) (speed : R)
        (i : nat) (w : Waypoint.t) :
  JS.index waypoints i = Some w ->
  Waypoint.type w = ORBIT ->
  exists pre seg post,
    pathBefore waypoints speed i = JS.Ok pre /\
    iteration waypoints speed i pre = JS.Ok (pre ++ seg) /\
    generateSimulationPath waypoints speed = JS.Ok (pre ++ seg ++ post) /\
    Forall (facesCenter w) seg.
Proof.
  intros Hidx Hty.
  destruct (orbit_segment waypoints speed i w Hidx Hty)
    as [pre [post [Hpre [Hit Hgen]]]].
  eexists pre, _, post. repeat split; try eassumption.
  apply Forall_map, Forall_forall. intros j _.
  unfold facesCenter, orbitSample. simpl. split; reflexivity.
Qed.

Lemma orbit_heading_to_center_witness :
  exists pre seg post,
    pathBefore [Scenario.start; Scenario.orbit30] 10 1 = JS.Ok pre /\
    iteration [Scenario.start; Scenario.orbit30] 10 1 pre = JS.Ok (pre ++ seg) /\
    generateSimulationPath [Scenario.start; Scenario.orbit30] 10
    = JS.Ok (pre ++ seg ++ post) /\
    Forall (facesCenter Scenario.orbit30) seg.
Proof.
  apply (orbit_heading_to_center [Scenario.start; Scenario.orbit30] 10 1
                                 Scenario.orbit30);
    reflexivity.
Defined.

(* ===================================================================== *)
(** * Degenerate inputs                                                   *)
(* ===================================================================== *)

(** C7. The empty waypoint list gives the empty path, without an error. *)
Theorem empty_input (speed : R) :
  generateSimulationPath [] speed = JS.Ok [].
Proof. reflexivity. Qed.

(** An orbit with a negative lap count pushes nothing. *)
Lemma negativeOrbit_silent (waypoints : list Waypoint.t) (speed : R) (i : nat)
      (w : Waypoint.t) (path : list SimulatedPoint.t) :
  JS.index waypoints i = Some w ->
  negativeOrbit w ->
  iteration waypoints speed i path = JS.Ok path.
Proof.
  intros Hidx [Hty Hneg].
  rewrite (iteration_orbit waypoints speed i w path Hidx Hty).
  rewrite or_nonzero by lra.
  rewrite stepCount_neg.
  - simpl. now rewrite app_nil_r.
  - pose proof (pointsPerLap_ge_24 (Waypoint.orbitRadius w) speed) as Hppl.
    nra.
Qed.

(** C10. An orbit waypoint with a negative lap count contributes no sample;
    a plain waypoint that follows it, has no successor and finds the path
    still empty, gets heading 0 from the guard on the missing previous
    sample. *)
Theorem negative_laps (waypoints : list Waypoint.t) (speed : R) (i : nat)
        (w : Waypoint.t) :
  JS.index waypoints i = Some w ->
  Waypoint.type w = ORBIT ->
  Waypoint.orbitLaps w < 0 ->
  (exists pre post,
      pathBefore waypoints speed i = JS.Ok pre /\
      iteration waypoints speed i pre = JS.Ok pre /\
      generateSimulationPath waypoints speed = JS.Ok (pre ++ post)) /\
  (forall n,
      JS.index waypoints (i + 1) = Some n ->
      Waypoint.type n = NORMAL ->
      JS.index waypoints (i + 2) = None ->
      pathBefore waypoints speed i = JS.Ok [] ->
      JS.last_elem (@nil SimulatedPoint.t) = None /\
      generateSimulationPath waypoints speed = JS.Ok [plainSample n 0]).
Proof.
  intros Hidx Hty Hneg.
  assert (Hsilent : forall path, iteration waypoints speed i path = JS.Ok path).
  { intros path. apply negativeOrbit_silent with (w := w); [assumption |].
    now split. }
  pose proof (index_in_bounds _ _ _ Hidx) as Hi.
  split.
  - destruct (pathBefore_defined waypoints speed i) as [pre Hpre]; [lia |].
    assert (Hit : iteration waypoints speed i pre = JS.Ok (pre ++ [])).
    { now rewrite app_nil_r. }
    destruct (segment_in_path waypoints speed i pre [] Hi Hpre Hit)
      as [post Hpost].
    exists pre, post. repeat split; [assumption | apply Hsilent | assumption].
  - intros n Hn Hnty Hend Hpre. split; [reflexivity |].
    pose proof (index_in_bounds _ _ _ Hn) as Hn_in.
    apply nth_error_None in Hend.
    rewrite generateSimulationPath_pathBefore.
    replace (length waypoints) with (S (S i)) by lia.
    simpl. rewrite Hpre. simpl. rewrite Hsilent. simpl.
    replace (S i) with (i + 1)%nat by lia.
    rewrite (iteration_normal_last waypoints speed (i + 1) n []);
      [| assumption | assumption
       | replace (i + 1 + 1)%nat with (i + 2)%nat by lia;
         now apply nth_error_None].
    replace (0 <? i + 1)%nat with true by (symmetry; apply Nat.ltb_lt; lia).
    reflexivity.
Qed.

Lemma negative_laps_witness :
  (exists pre post,
      pathBefore [Scenario.orbit30_back; Scenario.start] 10 0 = JS.Ok pre /\
      iteration [Scenario.orbit30_back; Scenario.start] 10 0 pre = JS.Ok pre /\
      generateSimulationPath [Scenario.orbit30_back; Scenario.start] 10
      = JS.Ok (pre ++ post)) /\
  generateSimulationPath [Scenario.orbit30_back; Scenario.start] 10
  = JS.Ok [plainSample Scenario.start 0].
Proof.
  assert (Hneg : Waypoint.orbitLaps Scenario.orbit30_back < 0) by (simpl; lra).
  destruct (negative_laps [Scenario.orbit30_back; Scenario.start] 10 0
                          Scenario.orbit30_back eq_refl eq_refl Hneg)
    as [Hnone Hnext].
  split; [exact Hnone |].
  exact (proj2 (Hnext Scenario.start eq_refl eq_refl eq_refl eq_refl)).
Defined.

(* ===================================================================== *)
(** * The fields the generator reads                                      *)
(* ===================================================================== *)

Lemma sameFlight_refl (w : Waypoint.t) : sameFlight w w.
Proof. unfold sameFlight. repeat split. Qed.

Lemma sameFlight_zero_laps (w : Waypoint.t) :
  Waypoint.orbitLaps w = 0 -> sameFlight w (withLaps w 1).
Proof.
  intros H. unfold sameFlight, withLaps. simpl. repeat split.
  rewrite H, or_zero. symmetry. apply or_nonzero. lra.
Qed.

Lemma index_Forall2 {A} (Rel : A -> A -> Prop) (l l' : list A) :
  Forall2 Rel l l' ->
  forall i,
    match JS.index l i, JS.index l' i with
    | Some a, Some a' => Rel a a'
    | None, None => True
    | _, _ => False
    end.
Proof.
  induction 1 as [| a a' l l' Ha _ IH]; intros [| i]; simpl; try exact I.
  - exact Ha.
  - apply IH.
Qed.

Lemma orbitSample_sameFlight (w w' : Waypoint.t) (angleStep : R) (j : nat) :
  sameFlight w w' -> orbitSample w angleStep j = orbitSample w' angleStep j.
Proof.
  intros (Hlat & Hlon & Halt & _ & Hrad & _).
  unfold orbitSample. now rewrite Hlat, Hlon, Halt, Hrad.
Qed.

Lemma iteration_sameFlight (wps wps' : list Waypoint.t) (speed : R) (i : nat)
      (path : list SimulatedPoint.t) :
  Forall2 sameFlight wps wps' ->
  iteration wps speed i path = iteration wps' speed i path.
Proof.
  intros Hall.
  pose proof (index_Forall2 sameFlight wps wps' Hall i) as Hcur.
  pose proof (index_Forall2 sameFlight wps wps' Hall (i + 1)) as Hnext.
  unfold iteration.
  destruct (JS.index wps i) as [w |], (JS.index wps' i) as [w' |];
    try contradiction; [| reflexivity].
  pose proof Hcur as (Hlat & Hlon & Halt & Hty & Hrad & Hlaps).
  rewrite <- Hty.
  destruct (WaypointType_eqb (Waypoint.type w) ORBIT).
  - rewrite <- Hrad, <- Hlaps. rewrite !orbitLoop_closed.
    do 2 f_equal. apply map_ext. intros j. now apply orbitSample_sameFlight.
  - rewrite <- Hlat, <- Hlon, <- Halt.
    destruct (JS.index wps (i + 1)) as [n |], (JS.index wps' (i + 1)) as [n' |];
      try contradiction; [| reflexivity].
    destruct Hnext as (Hnlat & Hnlon & _). now rewrite Hnlat, Hnlon.
Qed.

Lemma generateSimulationPath_sameFlight (wps wps' : list Waypoint.t) (speed : R) :
  Forall2 sameFlight wps wps' ->
  generateSimulationPath wps speed = generateSimulationPath wps' speed.
Proof.
  intros Hall. rewrite !generateSimulationPath_pathBefore.
  rewrite <- (Forall2_length Hall).
  induction (length wps) as [| k IH]; [reflexivity |].
  simpl. rewrite <- IH.
  destruct (pathBefore wps speed k); [| reflexivity].
  simpl. now apply iteration_sameFlight.
Qed.

(** C9. An orbit waypoint whose [orbitLaps] is 0 yields the samples it would
    yield with [orbitLaps = 1], wherever it stands in the mission. *)
Theorem zero_laps_as_one (before after : list Waypoint.t) (w : Waypoint.t)
        (speed : R) :
  Waypoint.type w = ORBIT ->
  Waypoint.orbitLaps w = 0 ->
  generateSimulationPath (before ++ w :: after) speed =
  generateSimulationPath (before ++ withLaps w 1 :: after) speed.
Proof.
  intros _ Hzero. apply generateSimulationPath_sameFlight.
  apply Forall2_app.
  - induction before; constructor; [apply sameFlight_refl | assumption].
  - constructor; [now apply sameFlight_zero_laps |].
    induction after; constructor; [apply sameFlight_refl | assumption].
Qed.

Lemma zero_laps_as_one_witness :
  generateSimulationPath ([Scenario.start] ++ Scenario.orbit30_nolaps :: [Scenario.east]) 10 =
  generateSimulationPath
    ([Scenario.start] ++ withLaps Scenario.orbit30_nolaps 1 :: [Scenario.east]) 10.
Proof.
  apply (zero_laps_as_one [Scenario.start] [Scenario.east]
                          Scenario.orbit30_nolaps 10);
    reflexivity.
Defined.

(* ===================================================================== *)
(** * Missions of plain waypoints                                         *)
(* ===================================================================== *)

Section PlainMission.

Variable waypoints : list Waypoint.t.
Variable speed : R.
Hypothesis all_plain : Forall (fun w => Waypoint.type w = NORMAL) waypoints.

Lemma plain_at (i : nat) (w : Waypoint.t) :
  JS.index waypoints i = Some w -> Waypoint.type w = NORMAL.
Proof.
  intros Hidx. rewrite Forall_forall in all_plain.
  apply all_plain. now apply nth_error_In with (n := i).
Qed.

Lemma index_app_old {A} (l : list A) (a : A) (i : nat) :
  (i < length l)%nat -> JS.index (l ++ [a]) i = JS.index l i.
Proof. intros H. unfold JS.index. now apply nth_error_app1. Qed.

Lemma index_app_new {A} (l : list A) (a : A) :
  JS.index (l ++ [a]) (length l) = Some a.
Proof.
  unfold JS.index. rewrite nth_error_app2 by lia.
  now rewrite Nat.sub_diag.
Qed.

Lemma last_elem_index {A} (l : list A) :
  (0 < length l)%nat -> JS.last_elem l = JS.index l (length l - 1).
Proof. destruct l; simpl; [lia | reflexivity]. Qed.

(** After [k] iterations the path has [k] samples, one per waypoint, and
    every waypoint with a successor looks at it. *)
Lemma plain_prefix (k : nat) :
  (k <= length waypoints)%nat ->
  exists path,
    pathBefore waypoints speed k = JS.Ok path /\
    length path = k /\
    forall i wi wj,
      (i < k)%nat ->
      JS.index waypoints i = Some wi ->
      JS.index waypoints (i + 1) = Some wj ->
      JS.index path i =
      Some (plainSample wi (calculateBearing (Waypoint.lat wi) (Waypoint.lon wi)
                                             (Waypoint.lat wj) (Waypoint.lon wj))).
Proof.
  induction k as [| k IH]; intros Hk.
  - exists []. repeat split. intros i wi wj Hi. lia.
  - destruct IH as [path [Hpre [Hlen Hheads]]]; [lia |].
    destruct (JS.index waypoints k) as [w |] eqn:Hw;
      [| apply nth_error_None in Hw; lia].
    pose proof (plain_at k w Hw) as Hty.
    assert (Hold : forall s i wi wj,
               (i < k)%nat ->
               JS.index waypoints i = Some wi ->
               JS.index waypoints (i + 1) = Some wj ->
               JS.index (path ++ [s]) i =
               Some (plainSample wi
                       (calculateBearing (Waypoint.lat wi) (Waypoint.lon wi)
                                         (Waypoint.lat wj) (Waypoint.lon wj)))).
    { intros s i wi wj Hi Hwi Hwj. rewrite index_app_old by lia.
      now apply Hheads. }
    destruct (JS.index waypoints (k + 1)) as [next |] eqn:Hnext.
    + eexists. simpl. rewrite Hpre. simpl.
      rewrite (iteration_normal_next waypoints speed k w next path Hw Hty Hnext).
      split; [reflexivity |]. split; [rewrite length_app; simpl; lia |].
      intros i wi wj Hi Hwi Hwj.
      destruct (Nat.eq_dec i k) as [-> | Hne].
      * rewrite Hw in Hwi. rewrite Hnext in Hwj.
        injection Hwi as <-. injection Hwj as <-.
        rewrite <- Hlen. apply index_app_new.
      * apply Hold; [lia | assumption | assumption].
    + eexists. simpl. rewrite Hpre. simpl.
      rewrite (iteration_normal_last waypoints speed k w path Hw Hty Hnext).
      split; [reflexivity |]. split; [rewrite length_app; simpl; lia |].
      intros i wi wj Hi Hwi Hwj.
      destruct (Nat.eq_dec i k) as [-> | Hne].
      * rewrite Hnext in Hwj. discriminate.
      * apply Hold; [lia | assumption | assumption].
Qed.

(** The last waypoint of a mission of two or more repeats the heading of
    the sample pushed before it. *)
Lemma plain_last (k : nat) (path : list SimulatedPoint.t) :
  length waypoints = S (S k) ->
  pathBefore waypoints speed (S k) = JS.Ok path ->
  length path = S k ->
  exists prev final,
    JS.index path k = Some prev /\
    pathBefore waypoints speed (S (S k)) = JS.Ok (path ++ [final]) /\
    SimulatedPoint.heading final = SimulatedPoint.heading prev.
Proof.
  intros Hn Hpre Hlen.
  destruct (JS.index waypoints (S k)) as [w |] eqn:Hw;
    [| apply nth_error_None in Hw; lia].
  assert (Hnext : JS.index waypoints (S k + 1) = None).
  { apply nth_error_None. lia. }
  destruct (JS.index path k) as [prev |] eqn:Hprev;
    [| apply nth_error_None in Hprev; lia].
  eexists prev, _. split; [reflexivity |]. split.
  - cbn [pathBefore]. cbn [pathBefore] in Hpre. rewrite Hpre. simpl JS.bind.
    rewrite (iteration_normal_last waypoints speed (S k) w path Hw
                                   (plain_at (S k) w Hw) Hnext).
    reflexivity.
  - simpl. rewrite last_elem_index by lia.
    rewrite Hlen. replace (S k - 1)%nat with k by lia.
    now rewrite Hprev.
Qed.

End PlainMission.

(** C3. A mission of [n >= 2] plain waypoints yields [n] samples; sample [i]
    with [i < n - 1] has the bearing from waypoint [i] to waypoint [i + 1],
    and sample [n - 1] repeats the heading of sample [n - 2]. *)
Theorem plain_mission_headings (waypoints : list Waypoint.t) (speed : R) :
  Forall (fun w => Waypoint.type w = NORMAL) waypoints ->
  (2 <= length waypoints)%nat ->
  exists path,
    generateSimulationPath waypoints speed = JS.Ok path /\
    length path = length waypoints /\
    (forall i wi wj,
        JS.index waypoints i = Some wi ->
        JS.index waypoints (i + 1) = Some wj ->
        exists p,
          JS.index path i = Some p /\
          SimulatedPoint.heading p =
          calculateBearing (Waypoint.lat wi) (Waypoint.lon wi)
                           (Waypoint.lat wj) (Waypoint.lon wj)) /\
    (exists prev final,
        JS.index path (length waypoints - 2) = Some prev /\
        JS.index path (length waypoints - 1) = Some final /\
        SimulatedPoint.heading final = SimulatedPoint.heading prev).
Proof.
  intros Hplain Hlen.
  destruct (length waypoints) as [| [| k]] eqn:Hn; try lia.
  destruct (plain_prefix waypoints speed Hplain (S k)) as [path [Hpre [Hplen Hheads]]];
    [lia |].
  destruct (plain_last waypoints speed Hplain k path Hn Hpre Hplen)
    as [prev [final [Hprev [Hfull Hcarry]]]].
  exists (path ++ [final]).
  split; [| split; [| split]].
  - rewrite generateSimulationPath_pathBefore, Hn. exact Hfull.
  - rewrite length_app. simpl. lia.
  - intros i wi wj Hwi Hwj.
    pose proof (index_in_bounds _ _ _ Hwj) as Hi.
    eexists. split.
    + rewrite index_app_old by lia. apply (Hheads i wi wj); [lia | assumption | assumption].
    + reflexivity.
  - exists prev, final. split; [| split; [| assumption]].
    + replace (S (S k) - 2)%nat with k by lia.
      rewrite index_app_old by lia. assumption.
    + replace (S (S k) - 1)%nat with (length path) by lia.
      apply index_app_new.
Qed.

Lemma plain_mission_headings_witness :
  exists path,
    generateSimulationPath [Scenario.start; Scenario.east] 10 = JS.Ok path /\
    length path = length [Scenario.start; Scenario.east] /\
    (forall i wi wj,
        JS.index [Scenario.start; Scenario.east] i = Some wi ->
        JS.index [Scenario.start; Scenario.east] (i + 1) = Some wj ->
        exists p,
          JS.index path i = Some p /\
          SimulatedPoint.heading p =
          calculateBearing (Waypoint.lat wi) (Waypoint.lon wi)
                           (Waypoint.lat wj) (Waypoint.lon wj)) /\
    (exists prev final,
        JS.index path (length [Scenario.start; Scenario.east] - 2) = Some prev /\
        JS.index path (length [Scenario.start; Scenario.east] - 1) = Some final /\
        SimulatedPoint.heading final = SimulatedPoint.heading prev).
Proof.
  apply (plain_mission_headings [Scenario.start; Scenario.east] 10).
  - repeat constructor.
  - simpl. lia.
Defined.

(* ===================================================================== *)
(** * [Math.atan2] and the remainder                                      *)
(* ===================================================================== *)

Section Atan2.

Lemma atan_nonpos (z : R) : z <= 0 -> atan z <= 0.
Proof.
  intros [Hlt | ->].
  - left. rewrite <- atan_0. now apply atan_increasing.
  - rewrite atan_0. lra.
Qed.

Lemma atan_pos (z : R) : 0 < z -> 0 < atan z.
Proof. intros H. rewrite <- atan_0. now apply atan_increasing. Qed.

(** The result of [Math.atan2] lies in (-PI, PI]. *)
Lemma Math_atan2_range (y x : R) : - PI < JS.Math_atan2 y x <= PI.
Proof.
  pose proof PI_RGT_0 as Hpi.
  unfold JS.Math_atan2.
  destruct (Rlt_dec 0 x) as [Hx | Hx].
  - pose proof (atan_bound (y / x)). lra.
  - destruct (Rlt_dec x 0) as [Hx' | Hx'].
    + assert (Hinv : / x < 0) by now apply Rinv_lt_0_compat.
      destruct (Rle_dec 0 y) as [Hy | Hy].
      * assert (Hz : y / x <= 0) by (unfold Rdiv; nra).
        pose proof (atan_nonpos _ Hz). pose proof (atan_bound (y / x)). lra.
      * assert (Hz : 0 < y / x) by (unfold Rdiv; nra).
        pose proof (atan_pos _ Hz). pose proof (atan_bound (y / x)). lra.
    + destruct (Rlt_dec 0 y); [lra |].
      destruct (Rlt_dec y 0); lra.
Qed.

Lemma sqrt_1_sqr_pos (z : R) : 0 < sqrt (1 + z²).
Proof. apply sqrt_lt_R0. pose proof (Rle_0_sqr z). lra. Qed.

Lemma hypot_scale (x y : R) :
  x <> 0 -> sqrt (x * x + y * y) = Rabs x * sqrt (1 + (y / x)²).
Proof.
  intros Hx.
  pose proof (sqrt_1_sqr_pos (y / x)) as Hs.
  pose proof (Rabs_pos x) as Habs.
  apply sqrt_lem_1.
  - nra.
  - nra.
  - replace (Rabs x * sqrt (1 + (y / x)²) * (Rabs x * sqrt (1 + (y / x)²)))
      with ((Rabs x * Rabs x) * (sqrt (1 + (y / x)²) * sqrt (1 + (y / x)²)))
      by ring.
    rewrite sqrt_sqrt by (pose proof (Rle_0_sqr (y / x)); lra).
    rewrite <- Rabs_mult, Rabs_pos_eq by nra.
    unfold Rsqr. now field.
Qed.

(** The angle returned by [Math.atan2] points at [(x, y)]. *)
Lemma Math_atan2_polar (y x : R) :
  sqrt (x * x + y * y) * cos (JS.Math_atan2 y x) = x /\
  sqrt (x * x + y * y) * sin (JS.Math_atan2 y x) = y.
Proof.
  unfold JS.Math_atan2.
  destruct (Rlt_dec 0 x) as [Hx | Hx].
  - pose proof (sqrt_1_sqr_pos (y / x)) as Hs.
    rewrite hypot_scale by lra. rewrite Rabs_pos_eq by lra.
    rewrite cos_atan, sin_atan. split; field; lra.
  - destruct (Rlt_dec x 0) as [Hx' | Hx'].
    + pose proof (sqrt_1_sqr_pos (y / x)) as Hs.
      rewrite hypot_scale by lra. rewrite Rabs_left by lra.
      destruct (Rle_dec 0 y) as [Hy | Hy].
      * rewrite neg_cos, neg_sin, cos_atan, sin_atan. split; field; lra.
      * replace (atan (y / x) - PI) with (- (- atan (y / x) + PI)) by ring.
        rewrite cos_neg, sin_neg, neg_cos, neg_sin, cos_neg, sin_neg.
        rewrite cos_atan, sin_atan. split; field; lra.
    + assert (Hx0 : x = 0) by lra. subst x.
      replace (0 * 0 + y * y) with (y * y) by ring.
      destruct (Rlt_dec 0 y) as [Hy | Hy].
      * rewrite sqrt_square by lra. rewrite cos_PI2, sin_PI2. lra.
      * destruct (Rlt_dec y 0) as [Hy' | Hy'].
        -- replace (y * y) with (- y * - y) by ring.
           rewrite sqrt_square by lra.
           rewrite cos_neg, sin_neg, cos_PI2, sin_PI2. lra.
        -- assert (Hy0 : y = 0) by lra. subst y.
           rewrite Rmult_0_r, sqrt_0. lra.
Qed.

(** An angle whose cosine is 1 is a whole number of turns. *)
Lemma cos_eq_1_turns (u : R) : cos u = 1 -> exists k : Z, u = 2 * IZR k * PI.
Proof.
  intros H.
  assert (Hhalf : sin (u / 2) = 0).
  { replace u with (2 * (u / 2)) in H by field.
    rewrite cos_2a_sin in H. nra. }
  destruct (sin_eq_0_0 _ Hhalf) as [k Hk].
  exists k. lra.
Qed.

(** Two angles with the same sine and cosine differ by whole turns. *)
Lemma same_direction (a t : R) :
  cos a = cos t -> sin a = sin t -> exists k : Z, a = t + 2 * IZR k * PI.
Proof.
  intros Hc Hs.
  destruct (cos_eq_1_turns (a - t)) as [k Hk].
  - rewrite cos_minus, Hc, Hs.
    pose proof (sin2_cos2 t) as H. unfold Rsqr in H. lra.
  - exists k. lra.
Qed.

(** [Math.atan2] of a point at angle [t] and positive distance [r]. *)
Lemma Math_atan2_of_polar (r t : R) :
  0 < r ->
  exists k : Z, JS.Math_atan2 (r * sin t) (r * cos t) = t + 2 * IZR k * PI.
Proof.
  intros Hr.
  destruct (Math_atan2_polar (r * sin t) (r * cos t)) as [Hc Hs].
  assert (Hhyp : sqrt (r * cos t * (r * cos t) + r * sin t * (r * sin t)) = r).
  { apply sqrt_lem_1; [nra | lra |].
    pose proof (sin2_cos2 t) as H. unfold Rsqr in H. nra. }
  rewrite Hhyp in Hc, Hs.
  apply same_direction; nra.
Qed.

(** The remainder of a non-negative dividend by a positive divisor. *)
Lemma rem_range (a n : R) : 0 <= a -> 0 < n -> 0 <= JS.rem a n < n.
Proof.
  intros Ha Hn. unfold JS.rem, JS.trunc.
  assert (Hq : 0 <= a / n).
  { unfold Rdiv. apply Rmult_le_pos; [assumption |].
    left. now apply Rinv_0_lt_compat. }
  destruct (Rle_dec 0 (a / n)); [| contradiction].
  destruct (Zfloor_bound (a / n)) as [Hlo Hhi].
  assert (Ha' : a = n * (a / n)) by (field; lra).
  nra.
Qed.

Lemma rem_congruent (a n : R) : exists m : Z, JS.rem a n = a - n * IZR m.
Proof. now exists (JS.trunc (a / n)). Qed.

End Atan2.

(* ===================================================================== *)
(** * Range of the bearing                                                *)
(* ===================================================================== *)

Lemma toDegrees_range (a : R) :
  - PI < a <= PI -> -180 < Cesium.toDegrees a <= 180.
Proof.
  intros [Hlo Hhi]. pose proof PI_RGT_0 as Hpi.
  unfold Cesium.toDegrees, Cesium.DEGREES_PER_RADIAN.
  assert (Hu : -1 < a / PI <= 1).
  { split.
    - apply Rmult_lt_reg_r with PI; [lra |].
      unfold Rdiv. rewrite Rmult_assoc, Rinv_l by lra. lra.
    - apply Rmult_le_reg_r with PI; [lra |].
      unfold Rdiv. rewrite Rmult_assoc, Rinv_l by lra. lra. }
  replace (a * (180 / PI)) with (180 * (a / PI)) by (field; lra).
  lra.
Qed.

Lemma toRadians_toDegrees (a : R) : Cesium.toRadians (Cesium.toDegrees a) = a.
Proof.
  unfold Cesium.toRadians, Cesium.toDegrees,
    Cesium.RADIANS_PER_DEGREE, Cesium.DEGREES_PER_RADIAN.
  field. apply PI_neq0.
Qed.







(* ===================================================================== *)
(** * Projection followed by bearing                                      *)
(* ===================================================================== *)

Section RoundTrip.

(** Spherical trigonometry, with the sines and cosines as unknowns:
    [sp], [cp] of the start latitude, [sd], [cd] of the angular distance,
    [st], [ct] of the bearing. *)
Variables sp cp sd cd st ct : R.
Hypothesis unit_p : sp * sp + cp * cp = 1.
Hypothesis unit_d : sd * sd + cd * cd = 1.
Hypothesis unit_t : st * st + ct * ct = 1.

Local Abbreviation s2 := (destSin sp cp sd cd ct).

Lemma dest_cos_sqr :
  1 - s2 * s2 =
  (cp * cd - sp * sd * ct) * (cp * cd - sp * sd * ct) + (sd * st) * (sd * st).
Proof. unfold destSin. nsatz. Qed.

Lemma dest_sin_bound : -1 <= s2 <= 1.
Proof.
  pose proof dest_cos_sqr as H.
  pose proof (Rle_0_sqr (cp * cd - sp * sd * ct)) as HA.
  pose proof (Rle_0_sqr (sd * st)) as HB.
  unfold Rsqr in HA, HB.
  assert (Hsq : s2 * s2 <= 1) by lra.
  generalize dependent s2. intros s H Hsq. split; nra.
Qed.

Lemma lon_x_factor : cd - sp * s2 = cp * (cp * cd - sp * sd * ct).
Proof. unfold destSin. nsatz. Qed.

Lemma back_x : cp * s2 - sp * (cp * cd - sp * sd * ct) = sd * ct.
Proof. unfold destSin. nsatz. Qed.

(** The two arguments [calculateBearing] hands to [Math.atan2] after a
    projection, from what [Math.atan2] returned inside the projection. *)
Lemma roundtrip_algebra (rho cD sD : R) :
  0 < cp ->
  0 <= rho ->
  rho * rho = 1 - s2 * s2 ->
  let X := cd - sp * s2 in
  let Y := st * sd * cp in
  sqrt (X * X + Y * Y) * cD = X ->
  sqrt (X * X + Y * Y) * sD = Y ->
  sD * rho = sd * st /\ cp * s2 - sp * rho * cD = sd * ct.
Proof.
  intros Hcp Hrho Hrho2 X Y HcD HsD.
  assert (Hhyp : sqrt (X * X + Y * Y) = cp * rho).
  { apply sqrt_lem_1; [nra | nra |].
    unfold X, Y. rewrite lon_x_factor.
    replace (cp * rho * (cp * rho)) with (cp * cp * (rho * rho)) by ring.
    rewrite Hrho2, dest_cos_sqr. ring. }
  rewrite Hhyp in HcD, HsD. unfold X in HcD. unfold Y in HsD.
  rewrite lon_x_factor in HcD.
  assert (HA : rho * cD = cp * cd - sp * sd * ct).
  { apply Rmult_eq_reg_l with cp; [| lra]. lra. }
  assert (HB : rho * sD = sd * st).
  { apply Rmult_eq_reg_l with cp; [| lra]. lra. }
  split; [lra |].
  rewrite Rmult_assoc, HA. apply back_x.
Qed.

End RoundTrip.

Lemma sin_cos_unit (a : R) : sin a * sin a + cos a * cos a = 1.
Proof. pose proof (sin2_cos2 a) as H. unfold Rsqr in H. exact H. Qed.

(** Away from the poles the bearing back-computed after a projection is the
    angle of the point [(sin(d/R) cos b, sin(d/R) sin b)]. *)
Lemma roundTrip_direction (lat lon d b : R) :
  0 < cos (Cesium.toRadians lat) ->
  roundTrip lat lon d b =
  JS.rem (Cesium.toDegrees
            (JS.Math_atan2 (sin (d / EARTH_RADIUS) * sin (Cesium.toRadians b))
                           (sin (d / EARTH_RADIUS) * cos (Cesium.toRadians b)))
          + 360) 360.
Proof.
  intros Hcp.
  unfold roundTrip, getPointAtDistanceAndBearing, calculateBearing.
  cbn [LatLon.lat LatLon.lon].
  rewrite !toRadians_toDegrees.
  set (p := Cesium.toRadians lat). set (l := Cesium.toRadians lon).
  set (t := Cesium.toRadians b). set (dl := d / EARTH_RADIUS).
  fold p in Hcp.
  pose proof (dest_sin_bound (sin p) (cos p) (sin dl) (cos dl) (sin t) (cos t)
                             (sin_cos_unit p) (sin_cos_unit dl) (sin_cos_unit t))
    as Hbound.
  unfold destSin in Hbound.
  set (s2 := sin p * cos dl + cos p * sin dl * cos t) in *.
  rewrite (sin_asin s2 Hbound), (cos_asin s2 Hbound).
  replace (l + JS.Math_atan2 (sin t * sin dl * cos p) (cos dl - sin p * s2) - l)
    with (JS.Math_atan2 (sin t * sin dl * cos p) (cos dl - sin p * s2)) by ring.
  destruct (Math_atan2_polar (sin t * sin dl * cos p) (cos dl - sin p * s2))
    as [HcD HsD].
  assert (Hnonneg : 0 <= 1 - s2²) by (unfold Rsqr; nra).
  destruct (roundtrip_algebra (sin p) (cos p) (sin dl) (cos dl) (sin t) (cos t)
                              (sin_cos_unit p) (sin_cos_unit dl) (sin_cos_unit t)
                              (sqrt (1 - s2²)) _ _ Hcp (sqrt_pos _)
                              (sqrt_sqrt _ Hnonneg) HcD HsD)
    as [Hy Hx].
  unfold destSin in Hx. fold s2 in Hx.
  rewrite Hy.
  replace (cos p * s2 - sin p * sqrt (1 - s2²)
           * cos (JS.Math_atan2 (sin t * sin dl * cos p) (cos dl - sin p * s2)))
    with (sin dl * cos t) by (rewrite <- Hx; ring).
  reflexivity.
Qed.

Lemma mod360_unique (b r : R) (z : Z) :
  r = b - 360 * IZR z -> 0 <= r < 360 -> r = mod360 b.
Proof.
  intros Hr Hrange. unfold mod360.
  rewrite (Zfloor_eq z); [assumption |].
  replace (b / 360) with (r / 360 + IZR z) by (rewrite Hr; field).
  lra.
Qed.

Lemma mod360_small (b : R) : 0 <= b < 360 -> mod360 b = b.
Proof.
  intros H. symmetry. apply mod360_unique with (z := 0%Z); [lra | assumption].
Qed.

Lemma rem_small (a n : R) : 0 <= a < n -> JS.rem a n = a.
Proof.
  intros [Hlo Hhi]. unfold JS.rem, JS.trunc.
  assert (Hq : 0 <= a / n < 1).
  { split.
    - apply Rmult_le_reg_r with n; [lra |].
      unfold Rdiv. rewrite Rmult_assoc, Rinv_l by lra. lra.
    - apply Rmult_lt_reg_r with n; [lra |].
      unfold Rdiv. rewrite Rmult_assoc, Rinv_l by lra. lra. }
  destruct (Rle_dec 0 (a / n)); [| lra].
  rewrite (Zfloor_eq 0); [lra | lra].
Qed.

Lemma Math_atan2_south : JS.Math_atan2 (-1) 0 = - (PI / 2).
Proof.
  unfold JS.Math_atan2.
  destruct (Rlt_dec 0 0); [lra |].
  destruct (Rlt_dec 0 (-1)); [lra |].
  destruct (Rlt_dec (-1) 0); [reflexivity | lra].
Qed.

Lemma toRadians_90 : Cesium.toRadians 90 = PI / 2.
Proof. unfold Cesium.toRadians, Cesium.RADIANS_PER_DEGREE. field. Qed.

Lemma toRadians_0 : Cesium.toRadians 0 = 0.
Proof. unfold Cesium.toRadians. ring. Qed.

(** C4, as stated, fails beyond half the way around the globe: three
    quarters of the circumference due east of (0, 0) lies a point whose
    bearing from (0, 0) is due west. *)
Lemma roundTrip_far_side :
  0 < 3 * (PI / 2) * EARTH_RADIUS /\
  roundTrip 0 0 (3 * (PI / 2) * EARTH_RADIUS) 90 = 270 /\
  mod360 90 = 90 /\
  roundTrip 0 0 (3 * (PI / 2) * EARTH_RADIUS) 90 <> mod360 90.
Proof.
  pose proof PI_RGT_0 as Hpi.
  assert (Hd : 0 < 3 * (PI / 2) * EARTH_RADIUS) by (unfold EARTH_RADIUS; nra).
  assert (Hback : roundTrip 0 0 (3 * (PI / 2) * EARTH_RADIUS) 90 = 270).
  { rewrite roundTrip_direction by (rewrite toRadians_0, cos_0; lra).
    replace (3 * (PI / 2) * EARTH_RADIUS / EARTH_RADIUS) with (3 * (PI / 2))
      by (unfold EARTH_RADIUS; field).
    rewrite toRadians_90, sin_3PI2, sin_PI2, cos_PI2.
    replace (-1 * 1) with (-1) by ring. replace (-1 * 0) with 0 by ring.
    rewrite Math_atan2_south.
    unfold Cesium.toDegrees, Cesium.DEGREES_PER_RADIAN.
    replace (- (PI / 2) * (180 / PI) + 360) with 270 by (field; lra).
    apply rem_small. lra. }
  assert (Hmod : mod360 90 = 90) by (apply mod360_small; lra).
  repeat split; try assumption.
  rewrite Hback, Hmod. lra.
Qed.

(** C4, amended. From an origin that is not a pole, over a distance short
    of half the circumference of the sphere, projecting at bearing [b] and
    taking the bearing back from the origin returns [b mod 360]. *)
Theorem roundTrip_bearing (lat lon d b : R) :
  -90 < lat < 90 ->
  0 < d < PI * EARTH_RADIUS ->
  roundTrip lat lon d b = mod360 b.
Proof.
  intros [Hlat_lo Hlat_hi] [Hd_lo Hd_hi].
  pose proof PI_RGT_0 as Hpi.
  assert (Hcp : 0 < cos (Cesium.toRadians lat)).
  { unfold Cesium.toRadians, Cesium.RADIANS_PER_DEGREE.
    apply cos_gt_0; nra. }
  assert (Hsd : 0 < sin (d / EARTH_RADIUS)).
  { assert (Hq : 0 < d / EARTH_RADIUS < PI).
    { unfold EARTH_RADIUS in *. split.
      - apply Rmult_lt_reg_r with 6378137; [lra |].
        unfold Rdiv. rewrite Rmult_assoc, Rinv_l by lra. lra.
      - apply Rmult_lt_reg_r with 6378137; [lra |].
        unfold Rdiv. rewrite Rmult_assoc, Rinv_l by lra. lra. }
    apply sin_gt_0; lra. }
  rewrite roundTrip_direction by assumption.
  destruct (Math_atan2_of_polar (sin (d / EARTH_RADIUS)) (Cesium.toRadians b) Hsd)
    as [k Hk].
  pose proof (toDegrees_range _ (Math_atan2_range
                (sin (d / EARTH_RADIUS) * sin (Cesium.toRadians b))
                (sin (d / EARTH_RADIUS) * cos (Cesium.toRadians b)))) as Hdeg.
  rewrite Hk in *.
  assert (Hturn : Cesium.toDegrees (Cesium.toRadians b + 2 * IZR k * PI)
                  = b + 360 * IZR k).
  { unfold Cesium.toDegrees, Cesium.toRadians,
      Cesium.RADIANS_PER_DEGREE, Cesium.DEGREES_PER_RADIAN.
    field. lra. }
  rewrite Hturn in *.
  destruct (rem_congruent (b + 360 * IZR k + 360) 360) as [m Hm].
  apply mod360_unique with (z := (m - k - 1)%Z).
  - rewrite Hm, !minus_IZR. ring.
  - apply rem_range; lra.
Qed.

Lemma roundTrip_bearing_witness :
  roundTrip 0 0 1000 450 = mod360 450.
Proof.
  apply (roundTrip_bearing 0 0 1000 450).
  - lra.
  - pose proof PI2_1. unfold EARTH_RADIUS. nra.
Defined.

(* ===================================================================== *)
(** * Further properties of the generator                                 *)
(* ===================================================================== *)

Lemma stepCount_pos (t : R) : 0 <= t -> (0 < stepCount t)%nat.
Proof.
  intros Ht. unfold stepCount.
  assert (Hz : (0 <= Zfloor t)%Z) by (apply Zfloor_lub; simpl; lra).
  lia.
Qed.

Lemma negativeOrbit_dec (w : Waypoint.t) : {negativeOrbit w} + {~ negativeOrbit w}.
Proof.
  unfold negativeOrbit.
  destruct (Waypoint.type w).
  - right. intros [H _]. discriminate.
  - destruct (Rlt_dec (Waypoint.orbitLaps w) 0) as [H | H].
    + left. now split.
    + right. intros [_ H']. contradiction.
Qed.

(** Every waypoint but an orbit with a negative lap count pushes a sample. *)
Lemma iteration_emits (waypoints : list Waypoint.t) (speed : R) (i : nat)
      (w : Waypoint.t) (path : list SimulatedPoint.t) :
  JS.index waypoints i = Some w ->
  ~ negativeOrbit w ->
  exists p seg, iteration waypoints speed i path = JS.Ok (path ++ p :: seg).
Proof.
  intros Hidx Hpos.
  destruct (Waypoint.type w) eqn:Hty.
  - destruct (JS.index waypoints (i + 1)) as [next |] eqn:Hnext.
    + eexists _, []. eapply iteration_normal_next; eassumption.
    + eexists _, []. eapply iteration_normal_last; eassumption.
  - rewrite (iteration_orbit waypoints speed i w path Hidx Hty).
    assert (Hlaps : 0 < JS.or (Waypoint.orbitLaps w) 1).
    { unfold JS.or. destruct (Req_dec_T (Waypoint.orbitLaps w) 0); [lra |].
      destruct (Rlt_dec (Waypoint.orbitLaps w) 0) as [Hneg | Hneg].
      - exfalso. apply Hpos. now split.
      - lra. }
    pose proof (pointsPerLap_ge_24 (Waypoint.orbitRadius w) speed) as Hppl.
    assert (Hsteps : (0 < stepCount (pointsPerLap (Waypoint.orbitRadius w) speed
                                     * JS.or (Waypoint.orbitLaps w) 1))%nat).
    { apply stepCount_pos. nra. }
    destruct (stepCount _) as [| n]; [lia |].
    simpl. eexists _, _. reflexivity.
Qed.

Lemma pathBefore_silent (waypoints : list Waypoint.t) (speed : R) (k : nat) :
  Forall negativeOrbit waypoints ->
  (k <= length waypoints)%nat ->
  pathBefore waypoints speed k = JS.Ok [].
Proof.
  intros Hall. induction k as [| k IH]; intros Hk; [reflexivity |].
  simpl. rewrite IH by lia. simpl.
  destruct (JS.index waypoints k) as [w |] eqn:Hw;
    [| apply nth_error_None in Hw; lia].
  apply negativeOrbit_silent with (w := w); [assumption |].
  rewrite Forall_forall in Hall. apply Hall.
  now apply nth_error_In with (n := k).
Qed.

Lemma generate_empty_iff (waypoints : list Waypoint.t) (speed : R) :
  generateSimulationPath waypoints speed = JS.Ok [] <->
  Forall negativeOrbit waypoints.
Proof.
  split.
  - intros Hgen. apply Forall_forall. intros w Hin.
    destruct (negativeOrbit_dec w) as [Hneg | Hpos]; [assumption | exfalso].
    destruct (In_nth_error _ _ Hin) as [i Hidx].
    pose proof (index_in_bounds _ _ _ Hidx) as Hi.
    destruct (pathBefore_defined waypoints speed i) as [pre Hpre]; [lia |].
    destruct (iteration_emits waypoints speed i w pre Hidx Hpos) as [p [seg Hit]].
    destruct (segment_in_path waypoints speed i pre (p :: seg) Hi Hpre Hit)
      as [post Hpost].
    rewrite Hgen in Hpost. injection Hpost as Hpost.
    symmetry in Hpost. apply app_eq_nil in Hpost. destruct Hpost as [_ Hpost].
    discriminate.
  - intros Hall. rewrite generateSimulationPath_pathBefore.
    now apply pathBefore_silent.
Qed.

(** The speed reaches the generator only through the divisor of the lap
    time. *)
Lemma iteration_lapDivisor (waypoints : list Waypoint.t) (speed speed' : R)
      (i : nat) (path : list SimulatedPoint.t) :
  lapDivisor speed = lapDivisor speed' ->
  iteration waypoints speed i path = iteration waypoints speed' i path.
Proof.
  intros H. unfold iteration, pointsPerLap. now rewrite H.
Qed.

Lemma pathBefore_ext (waypoints : list Waypoint.t) (speed speed' : R) (k : nat) :
  (forall i path, (i < k)%nat ->
                  iteration waypoints speed i path =
                  iteration waypoints speed' i path) ->
  pathBefore waypoints speed k = pathBefore waypoints speed' k.
Proof.
  induction k as [| k IH]; intros Hit; [reflexivity |].
  simpl. rewrite <- IH by (intros; apply Hit; lia).
  destruct (pathBefore waypoints speed k); [| reflexivity].
  simpl. apply Hit. lia.
Qed.

(** X2. Every speed of at most 0.1 m/s (zero and negative speeds included)
    gives the path of the speed 0.1 m/s. *)
Theorem slow_speeds_agree (waypoints : list Waypoint.t) (speed : R) :
  speed <= 1 / 10 ->
  generateSimulationPath waypoints speed =
  generateSimulationPath waypoints (1 / 10).
Proof.
  intros Hs. rewrite !generateSimulationPath_pathBefore.
  apply pathBefore_ext. intros i path _.
  apply iteration_lapDivisor.
  rewrite !lapDivisor_clamped; [reflexivity | lra | assumption].
Qed.

Lemma slow_speeds_agree_witness :
  generateSimulationPath [Scenario.start; Scenario.orbit30] (-3) =
  generateSimulationPath [Scenario.start; Scenario.orbit30] (1 / 10).
Proof.
  apply (slow_speeds_agree [Scenario.start; Scenario.orbit30] (-3)). lra.
Defined.

(** X3. A mission without orbit waypoints has the same path at every
    speed. *)
Theorem plain_mission_ignores_speed (waypoints : list Waypoint.t)
        (speed speed' : R) :
  Forall (fun w => Waypoint.type w = NORMAL) waypoints ->
  generateSimulationPath waypoints speed =
  generateSimulationPath waypoints speed'.
Proof.
  intros Hplain. rewrite !generateSimulationPath_pathBefore.
  apply pathBefore_ext. intros i path Hi.
  unfold iteration.
  destruct (JS.index waypoints i) as [w |] eqn:Hw; [| reflexivity].
  now rewrite (plain_at waypoints Hplain i w Hw).
Qed.

Lemma plain_mission_ignores_speed_witness :
  generateSimulationPath [Scenario.start; Scenario.east] 3 =
  generateSimulationPath [Scenario.start; Scenario.east] 40.
Proof.
  apply (plain_mission_ignores_speed [Scenario.start; Scenario.east] 3 40).
  repeat constructor.
Defined.

Lemma firstn_snoc {A} (l : list A) (k : nat) (a : A) :
  nth_error l k = Some a -> firstn (S k) l = firstn k l ++ [a].
Proof.
  revert k. induction l as [| b l IH]; intros [| k] H; simpl in *;
    try discriminate.
  - now injection H as ->.
  - f_equal. now apply IH.
Qed.

(** X5. The samples without the orbit flag are the plain waypoints, in
    mission order and at their positions: one sample for each. *)
Theorem plain_samples_are_plain_waypoints (waypoints : list Waypoint.t)
        (speed : R) :
  exists path,
    generateSimulationPath waypoints speed = JS.Ok path /\
    map samplePosition (filter (fun p => negb (SimulatedPoint.isOrbit p)) path) =
    map waypointPosition (filter (fun w => negb (isOrbitWaypoint w)) waypoints).
Proof.
  rewrite generateSimulationPath_pathBefore.
  assert (Hinv : forall k, (k <= length waypoints)%nat ->
    exists path,
      pathBefore waypoints speed k = JS.Ok path /\
      map samplePosition (filter (fun p => negb (SimulatedPoint.isOrbit p)) path) =
      map waypointPosition
          (filter (fun w => negb (isOrbitWaypoint w)) (firstn k waypoints))).
  { induction k as [| k IH]; intros Hk.
    - exists []. split; reflexivity.
    - destruct IH as [path [Hpre Hsame]]; [lia |].
      destruct (JS.index waypoints k) as [w |] eqn:Hw;
        [| apply nth_error_None in Hw; lia].
      rewrite (firstn_snoc waypoints k w Hw), filter_app, map_app, <- Hsame.
      cbn [pathBefore]. rewrite Hpre. cbn [JS.bind].
      unfold isOrbitWaypoint. cbn [filter].
      destruct (Waypoint.type w) eqn:Hty; cbn [WaypointType_eqb negb map].
      + destruct (JS.index waypoints (k + 1)) as [next |] eqn:Hnext.
        * eexists. split; [eapply iteration_normal_next; eassumption |].
          rewrite filter_app, map_app. reflexivity.
        * eexists. split; [eapply iteration_normal_last; eassumption |].
          rewrite filter_app, map_app. reflexivity.
      + eexists. split; [eapply iteration_orbit; eassumption |].
        rewrite filter_app, map_app. f_equal.
        match goal with |- context [seq 0 ?n] => generalize (seq 0 n) end.
        intros js. induction js as [| j js IHjs]; [reflexivity | exact IHjs]. }
  destruct (Hinv (length waypoints)) as [path [Hpath Hsame]]; [lia |].
  rewrite firstn_all in Hsame. now exists path.
Qed.

(* ===================================================================== *)
(** * Further properties of the geodesic primitives                       *)
(* ===================================================================== *)

Lemma Math_atan2_zero_nonneg (x : R) : 0 <= x -> JS.Math_atan2 0 x = 0.
Proof.
  intros Hx. unfold JS.Math_atan2.
  destruct (Rlt_dec 0 x).
  - unfold Rdiv. now rewrite Rmult_0_l, atan_0.
  - destruct (Rlt_dec x 0); [lra |].
    destruct (Rlt_dec 0 0); [lra | reflexivity].
Qed.


(** Start and destination coincide: both arguments of [Math.atan2] vanish. *)
Lemma calculateBearing_self (lat lon : R) : calculateBearing lat lon lat lon = 0.
Proof.
  unfold calculateBearing.
  rewrite Rminus_diag, sin_0, cos_0.
  match goal with |- context [JS.Math_atan2 ?y ?x] =>
    replace y with 0 by ring; replace x with 0 by ring
  end.
  rewrite Math_atan2_zero_nonneg by lra.
  unfold Cesium.toDegrees. rewrite Rmult_0_l, Rplus_0_l.
  unfold JS.rem, JS.trunc.
  replace (360 / 360) with 1 by field.
  destruct (Rle_dec 0 1); [| lra].
  rewrite (Zfloor_eq 1); [lra | lra].
Qed.

(** X9. The bearing from a point to itself is 0. *)
Theorem bearing_to_self (lat lon : R) : calculateBearing lat lon lat lon = 0.
Proof. apply calculateBearing_self. Qed.

(* ===================================================================== *)
(** * Reordering waypoints ([moveWaypoint])                               *)
(* ===================================================================== *)

Section Splice.

Context {A : Type}.

Lemma firstn_exact (a b : list A) : firstn (length a) (a ++ b) = a.
Proof. induction a as [| x a IH]; simpl; [now destruct b | now rewrite IH]. Qed.

Lemma skipn_exact (a b : list A) : skipn (length a) (a ++ b) = b.
Proof. induction a as [| x a IH]; simpl; [reflexivity | exact IH]. Qed.

Lemma skipn_past (a b : list A) (x : A) :
  skipn (S (length a)) (a ++ x :: b) = b.
Proof. induction a as [| z a IH]; simpl; [reflexivity | exact IH]. Qed.

Lemma spliceStart_inside (len : nat) (k : nat) :
  (k <= len)%nat -> spliceStart len (Z.of_nat k) = k.
Proof.
  intros Hk. unfold spliceStart.
  destruct (Z.of_nat k <? 0)%Z eqn:Hneg; [apply Z.ltb_lt in Hneg; lia |].
  lia.
Qed.

Lemma spliceDelete1_at (a b : list A) (x : A) :
  spliceDelete1 (a ++ x :: b) (Z.of_nat (length a)) = ([x], a ++ b).
Proof.
  unfold spliceDelete1.
  rewrite spliceStart_inside by (rewrite length_app; simpl; lia).
  rewrite skipn_exact, firstn_exact, skipn_past. reflexivity.
Qed.

Lemma spliceInsert_at (a b : list A) (x : A) :
  spliceInsert (a ++ b) (Z.of_nat (length a)) x = a ++ x :: b.
Proof.
  unfold spliceInsert.
  rewrite spliceStart_inside by (rewrite length_app; lia).
  now rewrite firstn_exact, skipn_exact.
Qed.

Lemma split_at_pair (l : list A) (i : nat) :
  (i + 1 < length l)%nat ->
  exists a x y b, l = a ++ x :: y :: b /\ length a = i.
Proof.
  revert i. induction l as [| z l IH]; intros i Hi; simpl in Hi; [lia |].
  destruct i as [| i].
  - destruct l as [| y b]; simpl in Hi; [lia |].
    now exists [], z, y, b.
  - destruct (IH i) as (a & x & y & b & -> & Hlen); [lia |].
    exists (z :: a), x, y, b. simpl. split; [reflexivity | lia].
Qed.

End Splice.

Lemma move_guard_passes (len : nat) (newIndex : Z) :
  (0 <= newIndex < Z.of_nat len)%Z ->
  ((newIndex <? 0) || (newIndex >=? Z.of_nat len))%Z = false.
Proof.
  intros H. apply orb_false_intro; [apply Z.ltb_ge | rewrite Z.geb_leb; apply Z.leb_gt]; lia.
Qed.

Lemma move_guard_stops (len : nat) (newIndex : Z) :
  ~ (0 <= newIndex < Z.of_nat len)%Z ->
  ((newIndex <? 0) || (newIndex >=? Z.of_nat len))%Z = true.
Proof.
  intros H. apply orb_true_iff.
  destruct (Z_lt_dec newIndex 0) as [Hneg | Hneg].
  - left. now apply Z.ltb_lt.
  - right. rewrite Z.geb_leb. apply Z.leb_le. lia.
Qed.

Lemma moveWaypoint_down (a b : list Waypoint.t) (x y : Waypoint.t) :
  moveWaypoint (a ++ x :: y :: b) (Z.of_nat (length a)) Down =
  Some (map Some (a ++ y :: x :: b)).
Proof.
  unfold moveWaypoint. cbn [Direction_value].
  rewrite move_guard_passes by (rewrite length_app; simpl; lia).
  rewrite map_app. cbn [map].
  rewrite <- (length_map Some a) at 1.
  rewrite spliceDelete1_at.
  replace (map Some a ++ Some y :: map Some b)
    with ((map Some a ++ [Some y]) ++ map Some b) by now rewrite <- app_assoc.
  replace (Z.of_nat (length a) + 1)%Z
    with (Z.of_nat (length (map Some a ++ [Some y])))
    by (rewrite length_app, length_map; simpl; lia).
  rewrite spliceInsert_at, map_app, <- app_assoc. reflexivity.
Qed.

Lemma moveWaypoint_up (a b : list Waypoint.t) (x y : Waypoint.t) :
  moveWaypoint (a ++ y :: x :: b) (Z.of_nat (length a) + 1) Up =
  Some (map Some (a ++ x :: y :: b)).
Proof.
  unfold moveWaypoint. cbn [Direction_value].
  rewrite move_guard_passes by (rewrite length_app; simpl; lia).
  rewrite map_app. cbn [map].
  replace (map Some a ++ Some y :: Some x :: map Some b)
    with ((map Some a ++ [Some y]) ++ Some x :: map Some b)
    by now rewrite <- app_assoc.
  replace (Z.of_nat (length a) + 1)%Z
    with (Z.of_nat (length (map Some a ++ [Some y]))) at 1
    by (rewrite length_app, length_map; simpl; lia).
  rewrite spliceDelete1_at, <- app_assoc. cbn [app].
  replace (Z.of_nat (length a) + 1 + -1)%Z
    with (Z.of_nat (length (map Some a))) by (rewrite length_map; lia).
  rewrite spliceInsert_at, map_app. reflexivity.
Qed.

(** X15. Moving a waypoint exchanges it with its neighbour: moved down,
    the waypoint at [index] and the one behind it trade places; moved up,
    the waypoint at [index] and the one before it do.  Nothing else moves. *)
Theorem moveWaypoint_swaps_neighbours (a b : list Waypoint.t) (x y : Waypoint.t) :
  moveWaypoint (a ++ x :: y :: b) (Z.of_nat (length a)) Down =
  Some (map Some (a ++ y :: x :: b)) /\
  moveWaypoint (a ++ y :: x :: b) (Z.of_nat (length a) + 1) Up =
  Some (map Some (a ++ x :: y :: b)).
Proof. split; [apply moveWaypoint_down | apply moveWaypoint_up]. Qed.

(** X16. For an index inside the list, [moveWaypoint] returns early
    exactly when the target index is outside the list (first waypoint up,
    last waypoint down); otherwise the new array is a permutation of the
    waypoints without any [undefined] slot. *)
Theorem moveWaypoint_permutes (waypoints : list Waypoint.t) (index : Z)
        (direction : Direction) :
  (0 <= index < Z.of_nat (length waypoints))%Z ->
  let newIndex := (index + Direction_value direction)%Z in
  (~ (0 <= newIndex < Z.of_nat (length waypoints))%Z ->
   moveWaypoint waypoints index direction = None) /\
  ((0 <= newIndex < Z.of_nat (length waypoints))%Z ->
   exists moved,
     moveWaypoint waypoints index direction = Some (map Some moved) /\
     Permutation waypoints moved /\
     length moved = length waypoints).
Proof.
  intros Hindex newIndex. split.
  - intros Hout. unfold moveWaypoint. fold newIndex.
    now rewrite move_guard_stops.
  - intros Hin. unfold newIndex in Hin.
    destruct direction; cbn [Direction_value] in Hin.
    + destruct (split_at_pair waypoints (Z.to_nat (index - 1)))
        as (a & y & x & b & -> & Hlen); [lia |].
      exists (a ++ x :: y :: b). split; [| split].
      * replace index with (Z.of_nat (length a) + 1)%Z by lia.
        apply moveWaypoint_up.
      * apply Permutation_app_head, perm_swap.
      * rewrite !length_app. reflexivity.
    + destruct (split_at_pair waypoints (Z.to_nat index))
        as (a & x & y & b & -> & Hlen); [lia |].
      exists (a ++ y :: x :: b). split; [| split].
      * replace index with (Z.of_nat (length a)) by lia.
        apply moveWaypoint_down.
      * apply Permutation_app_head, perm_swap.
      * rewrite !length_app. reflexivity.
Qed.

Lemma moveWaypoint_permutes_witness :
  (exists moved,
      moveWaypoint [Scenario.start; Scenario.east; Scenario.north] 1 Up
      = Some (map Some moved) /\
      Permutation [Scenario.start; Scenario.east; Scenario.north] moved /\
      length moved = 3%nat) /\
  moveWaypoint [Scenario.start; Scenario.east; Scenario.north] 2 Down = None.
Proof.
  split.
  - apply (moveWaypoint_permutes [Scenario.start; Scenario.east; Scenario.north]
                                 1 Up); simpl; lia.
  - apply (moveWaypoint_permutes [Scenario.start; Scenario.east; Scenario.north]
                                 2 Down); simpl; lia.
Defined.

(** X17. Moving a waypoint down and then up again from its new place
    restores the list. *)
Theorem moveWaypoint_down_up (waypoints : list Waypoint.t) (index : Z) :
  (0 <= index)%Z ->
  (index + 1 < Z.of_nat (length waypoints))%Z ->
  exists moved,
    moveWaypoint waypoints index Down = Some (map Some moved) /\
    moveWaypoint moved (index + 1) Up = Some (map Some waypoints).
Proof.
  intros Hlo Hhi.
  destruct (split_at_pair waypoints (Z.to_nat index))
    as (a & x & y & b & -> & Hlen); [lia |].
  exists (a ++ y :: x :: b).
  replace index with (Z.of_nat (length a)) by lia.
  split; [apply moveWaypoint_down | apply moveWaypoint_up].
Qed.

Lemma moveWaypoint_down_up_witness :
  exists moved,
    moveWaypoint [Scenario.start; Scenario.east; Scenario.north] 0 Down
    = Some (map Some moved) /\
    moveWaypoint moved (0 + 1) Up
    = Some (map Some [Scenario.start; Scenario.east; Scenario.north]).
Proof.
  apply (moveWaypoint_down_up [Scenario.start; Scenario.east; Scenario.north] 0);
    simpl; lia.
Defined.

(** X18. Outside the list the index is not rejected when the target is
    inside: index -1 moved down takes the last waypoint to the front, and
    index [length] moved up leaves an [undefined] slot before the last
    waypoint. *)
Theorem moveWaypoint_stray_index (l : list Waypoint.t) (x : Waypoint.t) :
  moveWaypoint (l ++ [x]) (-1) Down = Some (map Some (x :: l)) /\
  moveWaypoint (l ++ [x]) (Z.of_nat (length (l ++ [x]))) Up =
  Some (map Some l ++ [None; Some x]).
Proof.
  split.
  - unfold moveWaypoint. cbn [Direction_value].
    rewrite move_guard_passes by (rewrite length_app; simpl; lia).
    assert (Hdel : spliceDelete1 (map Some (l ++ [x])) (-1)
                   = ([Some x], map Some l ++ [])).
    { rewrite map_app. cbn [map].
      rewrite <- (spliceDelete1_at (map Some l) [] (Some x)).
      unfold spliceDelete1, spliceStart.
      rewrite !length_app, !length_map. simpl length.
      replace (Z.of_nat (length l) <? 0)%Z with false
        by (symmetry; apply Z.ltb_ge; lia).
      cbn [Z.ltb Z.compare].
      replace (Z.to_nat (Z.max (Z.of_nat (length l + 1) + -1) 0))
        with (Z.to_nat (Z.min (Z.of_nat (length l)) (Z.of_nat (length l + 1))))
        by lia.
      reflexivity. }
    rewrite Hdel, app_nil_r.
    change (-1 + 1)%Z with (Z.of_nat (length (@nil (option Waypoint.t)))).
    rewrite <- (app_nil_l (map Some l)) at 1.
    rewrite spliceInsert_at. reflexivity.
  - unfold moveWaypoint. cbn [Direction_value].
    rewrite move_guard_passes by (rewrite length_app; simpl; lia).
    assert (Hdel : spliceDelete1 (map Some (l ++ [x]))
                                 (Z.of_nat (length (l ++ [x])))
                   = ([], map Some (l ++ [x]))).
    { unfold spliceDelete1.
      rewrite spliceStart_inside by (rewrite length_map; lia).
      rewrite <- (length_map Some (l ++ [x])).
      rewrite skipn_all, firstn_all.
      rewrite skipn_all2 by lia. now rewrite app_nil_r. }
    rewrite Hdel. rewrite map_app. cbn [map].
    replace (Z.of_nat (length (l ++ [x])) + -1)%Z
      with (Z.of_nat (length (map Some l)))
      by (rewrite length_app, length_map; simpl; lia).
    rewrite spliceInsert_at. reflexivity.
Qed.

(* ===================================================================== *)
(** * Editing and removing waypoints                                      *)
(* ===================================================================== *)

Lemma spread_keeps_id (wp : Waypoint.t) (updates : Partial.t) :
  Partial.id updates = None -> Waypoint.id (spread wp updates) = Waypoint.id wp.
Proof. intros H. unfold spread. simpl. now rewrite H. Qed.

(** X19. An update without the key [id] keeps the number, the order and
    the identifiers of the waypoints; it replaces every waypoint with the
    given identifier by its spread with the update and leaves the others,
    the selection, the speed and the simulation state alone. *)
Theorem updateWaypoint_in_place (st : AppState.t) (id : string)
        (updates : Partial.t) :
  Partial.id updates = None ->
  let st' := updateWaypoint st id updates in
  map Waypoint.id (AppState.waypoints st') = map Waypoint.id (AppState.waypoints st) /\
  (forall k wp,
      JS.index (AppState.waypoints st) k = Some wp ->
      JS.index (AppState.waypoints st') k =
      Some (if String.eqb (Waypoint.id wp) id then spread wp updates else wp)) /\
  AppState.selectedId st' = AppState.selectedId st /\
  AppState.globalSpeed st' = AppState.globalSpeed st /\
  AppState.isSimulating st' = AppState.isSimulating st /\
  AppState.simulatedPath st' = AppState.simulatedPath st.
Proof.
  intros Hid st'. unfold st', updateWaypoint, setWaypoints. cbn.
  repeat split.
  - rewrite map_map. apply map_ext. intros wp.
    destruct (String.eqb (Waypoint.id wp) id); [now apply spread_keeps_id | reflexivity].
  - intros k wp Hk. unfold JS.index in *. rewrite nth_error_map, Hk. reflexivity.
Qed.

Lemma updateWaypoint_in_place_witness :
  map Waypoint.id (AppState.waypoints (updateWaypoint Scenario.editing "east" Scenario.climb))
  = map Waypoint.id (AppState.waypoints Scenario.editing).
Proof.
  apply (updateWaypoint_in_place Scenario.editing "east" Scenario.climb).
  reflexivity.
Defined.

Lemma spread_sameFlight (wp : Waypoint.t) (updates : Partial.t) :
  Partial.lat updates = None ->
  Partial.lon updates = None ->
  Partial.alt updates = None ->
  Partial.type updates = None ->
  Partial.orbitRadius updates = None ->
  Partial.orbitLaps updates = None ->
  sameFlight (spread wp updates) wp.
Proof.
  intros Hlat Hlon Halt Hty Hrad Hlaps. unfold sameFlight, spread. cbn.
  rewrite Hlat, Hlon, Halt, Hty, Hrad, Hlaps. cbn. repeat split.
Qed.

(** X20. The fields [id], [orbitPoints] and [orbitSpeed] do not reach the
    simulation: an update that carries no other key leaves the generated
    path of the mission as it was, at every speed. *)
Theorem legacy_fields_unused (st : AppState.t) (id : string)
        (updates : Partial.t) (speed : R) :
  Partial.lat updates = None ->
  Partial.lon updates = None ->
  Partial.alt updates = None ->
  Partial.type updates = None ->
  Partial.orbitRadius updates = None ->
  Partial.orbitLaps updates = None ->
  generateSimulationPath (AppState.waypoints (updateWaypoint st id updates)) speed =
  generateSimulationPath (AppState.waypoints st) speed.
Proof.
  intros Hlat Hlon Halt Hty Hrad Hlaps.
  apply generateSimulationPath_sameFlight.
  unfold updateWaypoint, setWaypoints. cbn.
  induction (AppState.waypoints st) as [| wp wps IH]; constructor; [| exact IH].
  destruct (String.eqb (Waypoint.id wp) id).
  - now apply spread_sameFlight.
  - apply sameFlight_refl.
Qed.

Lemma legacy_fields_unused_witness :
  generateSimulationPath
    (AppState.waypoints (updateWaypoint Scenario.editing "east" Scenario.legacyUpdate)) 10 =
  generateSimulationPath (AppState.waypoints Scenario.editing) 10.
Proof.
  apply (legacy_fields_unused Scenario.editing "east" Scenario.legacyUpdate 10);
    reflexivity.
Defined.

Lemma find_map_update (wps : list Waypoint.t) (id : string) (updates : Partial.t) :
  Partial.id updates = None ->
  find (fun wp => String.eqb id (Waypoint.id wp))
       (map (fun wp => if String.eqb (Waypoint.id wp) id
                       then spread wp updates else wp) wps) =
  option_map (fun wp => spread wp updates)
             (find (fun wp => String.eqb id (Waypoint.id wp)) wps).
Proof.
  intros Hid. induction wps as [| wp wps IH]; [reflexivity |].
  cbn [map find].
  destruct (String.eqb (Waypoint.id wp) id) eqn:Hwp.
  - rewrite spread_keeps_id by assumption.
    rewrite String.eqb_sym, Hwp. reflexivity.
  - rewrite String.eqb_sym, Hwp. exact IH.
Qed.

(** X21. After an update of the selected waypoint (without the key [id])
    the detail panel finds the updated waypoint: [selectedWP] is the
    spread of what it was before. *)
Theorem selectedWP_after_update (st : AppState.t) (id : string)
        (updates : Partial.t) :
  AppState.selectedId st = Some id ->
  Partial.id updates = None ->
  selectedWP (updateWaypoint st id updates) =
  option_map (fun wp => spread wp updates) (selectedWP st).
Proof.
  intros Hsel Hid. unfold selectedWP, updateWaypoint, setWaypoints. cbn.
  rewrite Hsel. cbn [selected_is]. now apply find_map_update.
Qed.

Lemma selectedWP_after_update_witness :
  selectedWP (updateWaypoint Scenario.editing "east" Scenario.climb) =
  option_map (fun wp => spread wp Scenario.climb) (selectedWP Scenario.editing).
Proof.
  apply (selectedWP_after_update Scenario.editing "east" Scenario.climb);
    reflexivity.
Defined.

Lemma removeWaypoint_waypoints (st : AppState.t) (id : string) :
  AppState.waypoints (removeWaypoint st id) =
  filter (fun wp => negb (String.eqb (Waypoint.id wp) id)) (AppState.waypoints st).
Proof.
  unfold removeWaypoint.
  now destruct (selected_is (AppState.selectedId st) id).
Qed.

Lemma removeWaypoint_selectedId (st : AppState.t) (id : string) :
  AppState.selectedId (removeWaypoint st id) =
  if selected_is (AppState.selectedId st) id then None else AppState.selectedId st.
Proof.
  unfold removeWaypoint.
  now destruct (selected_is (AppState.selectedId st) id).
Qed.

(** X22. Removing by identifier deletes the waypoints with that
    identifier and no other, keeps the others in their order, never leaves
    the removed identifier selected and keeps any other selection. *)
Theorem removeWaypoint_clears (st : AppState.t) (id : string) :
  let st' := removeWaypoint st id in
  (forall wp, In wp (AppState.waypoints st') <->
              In wp (AppState.waypoints st) /\ Waypoint.id wp <> id) /\
  AppState.waypoints st' =
  filter (fun wp => negb (String.eqb (Waypoint.id wp) id)) (AppState.waypoints st) /\
  AppState.selectedId st' <> Some id /\
  (AppState.selectedId st <> Some id ->
   AppState.selectedId st' = AppState.selectedId st).
Proof.
  intros st'. unfold st'.
  rewrite removeWaypoint_waypoints, removeWaypoint_selectedId.
  split; [| split; [| split]].
  - intros wp. rewrite filter_In, negb_true_iff, String.eqb_neq. reflexivity.
  - reflexivity.
  - destruct (AppState.selectedId st) as [s |] eqn:Hsel; cbn [selected_is];
      [| discriminate].
    destruct (String.eqb s id) eqn:Hs; [discriminate |].
    apply String.eqb_neq in Hs. congruence.
  - intros Hsel.
    destruct (AppState.selectedId st) as [s |]; cbn [selected_is]; [| reflexivity].
    destruct (String.eqb s id) eqn:Hs; [| reflexivity].
    apply String.eqb_eq in Hs. congruence.
Qed.

(* ===================================================================== *)
(** * Invariants of the editor                                            *)
(* ===================================================================== *)

Lemma selectionValid_perm (st : AppState.t) (wps : list Waypoint.t) :
  Permutation (AppState.waypoints st) wps ->
  selectionValid st -> selectionValid (setWaypoints st wps).
Proof.
  intros Hperm. unfold selectionValid, setWaypoints. cbn.
  destruct (AppState.selectedId st) as [s |]; [| trivial].
  intros (wp & Hin & Hid). exists wp. split; [| assumption].
  now apply Permutation_in with (l := AppState.waypoints st).
Qed.

(** X23. The selection stays empty or on a waypoint of the mission under
    a map click, a removal, an update without the key [id], a move inside
    the list, a start or stop of the simulation and its end. *)
Theorem selection_stays_valid (st : AppState.t) :
  selectionValid st ->
  (forall uuid latitude longitude,
      selectionValid (handleMapClick st uuid latitude longitude)) /\
  (forall id, selectionValid (removeWaypoint st id)) /\
  (forall id updates, Partial.id updates = None ->
                      selectionValid (updateWaypoint st id updates)) /\
  (forall index direction moved,
      (0 <= index < Z.of_nat (length (AppState.waypoints st)))%Z ->
      moveWaypoint (AppState.waypoints st) index direction = Some (map Some moved) ->
      selectionValid (setWaypoints st moved)) /\
  (forall st' alert, handleRunSimulation st = JS.Ok (st', alert) ->
                     selectionValid st') /\
  selectionValid (onSimulationEnd st).
Proof.
  intros Hvalid. repeat split.
  - intros uuid latitude longitude. unfold handleMapClick.
    destruct (AppState.isSimulating st); [assumption |].
    unfold selectionValid, setSelectedId, setWaypoints. cbn.
    eexists. split; [apply in_or_app; right; left; reflexivity | reflexivity].
  - intros id. unfold selectionValid.
    rewrite removeWaypoint_waypoints, removeWaypoint_selectedId.
    unfold selectionValid in Hvalid.
    destruct (AppState.selectedId st) as [s |]; cbn [selected_is]; [| trivial].
    destruct (String.eqb s id) eqn:Hs; [trivial |].
    destruct Hvalid as (wp & Hin & Hid). exists wp. split; [| assumption].
    apply filter_In. split; [assumption |].
    rewrite Hid, Hs. reflexivity.
  - intros id updates Hid. unfold selectionValid, updateWaypoint, setWaypoints. cbn.
    unfold selectionValid in Hvalid.
    destruct (AppState.selectedId st) as [s |]; [| trivial].
    destruct Hvalid as (wp & Hin & Hwp).
    exists (if String.eqb (Waypoint.id wp) id then spread wp updates else wp).
    split.
    + apply in_map_iff. now exists wp.
    + destruct (String.eqb (Waypoint.id wp) id); [| assumption].
      now rewrite spread_keeps_id.
  - intros index direction moved Hindex Hmove.
    apply selectionValid_perm; [| assumption].
    unfold moveWaypoint in Hmove.
    destruct ((index + Direction_value direction <? 0)
              || (index + Direction_value direction
                  >=? Z.of_nat (length (AppState.waypoints st))))%Z eqn:Hguard;
      [discriminate |].
    apply orb_false_elim in Hguard. destruct Hguard as [Hlo Hhi].
    apply Z.ltb_ge in Hlo. rewrite Z.geb_leb in Hhi. apply Z.leb_gt in Hhi.
    assert (Hsome : moveWaypoint (AppState.waypoints st) index direction
                    = Some (map Some moved)).
    { unfold moveWaypoint.
      rewrite move_guard_passes by lia. exact Hmove. }
    destruct direction; cbn [Direction_value] in *.
    + destruct (split_at_pair (AppState.waypoints st) (Z.to_nat (index - 1)))
        as (a & y & x & b & Heq & Hlen); [lia |].
      rewrite Heq in *.
      replace index with (Z.of_nat (length a) + 1)%Z in Hsome by lia.
      rewrite moveWaypoint_up in Hsome. injection Hsome as Hsome.
      apply (f_equal (map (fun o => match o with Some w => [w] | None => [] end)))
        in Hsome.
      apply (f_equal (@concat _)) in Hsome.
      rewrite !map_map in Hsome. cbn in Hsome.
      rewrite <- !flat_map_concat_map in Hsome.
      assert (Hflat : forall l : list Waypoint.t, flat_map (fun x => [x]) l = l).
      { induction l as [| z l IH]; [reflexivity | cbn; now rewrite IH]. }
      rewrite !Hflat in Hsome. rewrite <- Hsome.
      apply Permutation_app_head, perm_swap.
    + destruct (split_at_pair (AppState.waypoints st) (Z.to_nat index))
        as (a & x & y & b & Heq & Hlen); [lia |].
      rewrite Heq in *.
      replace index with (Z.of_nat (length a)) in Hsome by lia.
      rewrite moveWaypoint_down in Hsome. injection Hsome as Hsome.
      apply (f_equal (map (fun o => match o with Some w => [w] | None => [] end)))
        in Hsome.
      apply (f_equal (@concat _)) in Hsome.
      rewrite !map_map in Hsome. cbn in Hsome.
      rewrite <- !flat_map_concat_map in Hsome.
      assert (Hflat : forall l : list Waypoint.t, flat_map (fun x => [x]) l = l).
      { induction l as [| z l IH]; [reflexivity | cbn; now rewrite IH]. }
      rewrite !Hflat in Hsome. rewrite <- Hsome.
      apply Permutation_app_head, perm_swap.
  - intros st' alert Hrun. unfold handleRunSimulation in Hrun.
    destruct (AppState.isSimulating st).
    + injection Hrun as <- _. exact Hvalid.
    + destruct (generateSimulationPath _ _) as [path |]; [| discriminate].
      cbn [JS.bind] in Hrun.
      destruct (length path =? 0)%nat; injection Hrun as <- _; exact Hvalid.
  - exact Hvalid.
Qed.

Lemma selection_stays_valid_witness :
  selectionValid (removeWaypoint Scenario.editing "east") /\
  selectionValid (removeWaypoint Scenario.editing "north").
Proof.
  assert (Hvalid : selectionValid Scenario.editing).
  { exists Scenario.east. split; [right; left; reflexivity | reflexivity]. }
  destruct (selection_stays_valid Scenario.editing Hvalid) as (_ & Hremove & _).
  split; apply Hremove.
Defined.

(* ===================================================================== *)
(** * Starting and stopping the simulation ([App])                        *)
(* ===================================================================== *)



(** X25. Whatever the state, a simulation that is on has a path to fly:
    the run button establishes this, and map clicks, edits of the
    waypoints and the end of the simulation keep it. *)
Theorem simulation_has_path (st : AppState.t) :
  (forall st' alert, handleRunSimulation st = JS.Ok (st', alert) ->
                     simulationReady st') /\
  (simulationReady st ->
   (forall uuid latitude longitude,
       simulationReady (handleMapClick st uuid latitude longitude)) /\
   (forall id, simulationReady (removeWaypoint st id)) /\
   (forall id updates, simulationReady (updateWaypoint st id updates)) /\
   (forall wps, simulationReady (setWaypoints st wps)) /\
   simulationReady (onSimulationEnd st)).
Proof.
  split.
  - intros st' alert Hrun. unfold handleRunSimulation in Hrun.
    destruct (AppState.isSimulating st) eqn:Hsim.
    + injection Hrun as <- _. intros Hon. discriminate.
    + destruct (generateSimulationPath _ _) as [path |]; [| discriminate].
      cbn [JS.bind] in Hrun.
      destruct path as [| p path]; cbn [length Nat.eqb] in Hrun;
        injection Hrun as <- _.
      * intros Hon. congruence.
      * intros _. discriminate.
  - intros Hready. repeat split.
    + intros uuid latitude longitude. unfold handleMapClick.
      destruct (AppState.isSimulating st) eqn:Hsim; [assumption |].
      intros Hon. cbn in Hon. congruence.
    + intros id. unfold removeWaypoint.
      destruct (selected_is (AppState.selectedId st) id); exact Hready.
    + intros id updates. exact Hready.
    + intros wps. exact Hready.
    + intros Hon. discriminate.
Qed.

Lemma simulation_has_path_witness :
  simulationReady (removeWaypoint Scenario.editing "east").
Proof.
  pose proof (simulation_has_path Scenario.editing) as [_ Hkeep].
  apply Hkeep. intros Hon. discriminate.
Defined.



(** X27. A map click during a simulation changes nothing.  Otherwise it
    appends one plain waypoint with the default altitude, radius and lap
    count at the clicked position (converted to degrees), selects its
    identifier, and, the identifier being fresh, the detail panel shows
    that waypoint. *)
Theorem map_click_appends (st : AppState.t) (uuid : string)
        (latitude longitude : R) :
  let st' := handleMapClick st uuid latitude longitude in
  (AppState.isSimulating st = true -> st' = st) /\
  (AppState.isSimulating st = false ->
   exists wp,
     AppState.waypoints st' = AppState.waypoints st ++ [wp] /\
     wp = Waypoint.mk uuid (Cesium.toDegrees latitude) (Cesium.toDegrees longitude)
                      50 NORMAL 30 36 1 (AppState.globalSpeed st) /\
     AppState.selectedId st' = Some uuid /\
     ((forall old, In old (AppState.waypoints st) -> Waypoint.id old <> uuid) ->
      selectedWP st' = Some wp)).
Proof.
  intros st'. unfold st', handleMapClick. split.
  - intros ->. reflexivity.
  - intros ->. eexists. split; [reflexivity |]. split; [reflexivity |].
    split; [reflexivity |].
    intros Hfresh. unfold selectedWP. cbn.
    induction (AppState.waypoints st) as [| old wps IH].
    + cbn. now rewrite String.eqb_refl.
    + cbn [app find].
      replace (String.eqb uuid (Waypoint.id old)) with false.
      * apply IH. intros o Ho. apply Hfresh. now right.
      * symmetry. apply String.eqb_neq. intros Heq.
        apply (Hfresh old); [now left | now symmetry].
Qed.

Lemma map_click_appends_witness :
  exists wp,
    AppState.waypoints (handleMapClick Scenario.editing "fresh" 0 0)
    = AppState.waypoints Scenario.editing ++ [wp] /\
    wp = Waypoint.mk "fresh" (Cesium.toDegrees 0) (Cesium.toDegrees 0)
                     50 NORMAL 30 36 1 (AppState.globalSpeed Scenario.editing) /\
    AppState.selectedId (handleMapClick Scenario.editing "fresh" 0 0)
    = Some "fresh"%string /\
    ((forall old, In old (AppState.waypoints Scenario.editing) ->
                  Waypoint.id old <> "fresh"%string) ->
     selectedWP (handleMapClick Scenario.editing "fresh" 0 0) = Some wp).
Proof.
  apply (map_click_appends Scenario.editing "fresh" 0 0). reflexivity.
Defined.

(* ===================================================================== *)
(** * The animation timeline                                              *)
(* ===================================================================== *)

Section Timeline.

Variable Cartesian3 : Type.
Variable fromDegrees : R -> R -> R -> Cartesian3.
Variable distance : Cartesian3 -> Cartesian3 -> R.

Local Abbreviation point := (samplePoint Cartesian3 fromDegrees).
Local Abbreviation leg := (legSeconds Cartesian3 fromDegrees distance).
Local Abbreviation step := (animationStep Cartesian3 fromDegrees distance).
Local Abbreviation loop := (animationLoop Cartesian3 fromDegrees distance).
Local Abbreviation positions := (positionsFrom Cartesian3 fromDegrees distance).
Local Abbreviation rotations := (rotationsFrom Cartesian3 fromDegrees distance).
Local Abbreviation arrival := (arrivalFrom Cartesian3 fromDegrees distance).

Local Abbreviation place := (place Cartesian3 fromDegrees).

Lemma animationLoop_enter (path : list SimulatedPoint.t) (SPEED : R) (i : nat)
      (s : AnimState.t Cartesian3) :
  (i < length path)%nat ->
  loop path SPEED i s = JS.bind (step path SPEED i s) (loop path SPEED (S i)).
Proof.
  intros Hi. rewrite animationLoop_equation_1.
  destruct (lt_dec i (length path)); [| contradiction].
  simpl. now destruct (step path SPEED i s).
Qed.

Lemma animationLoop_exit (path : list SimulatedPoint.t) (SPEED : R) (i : nat)
      (s : AnimState.t Cartesian3) :
  ~ (i < length path)%nat -> loop path SPEED i s = JS.Ok s.
Proof.
  intros Hi. rewrite animationLoop_equation_1.
  destruct (lt_dec i (length path)); [contradiction | reflexivity].
Qed.

(** The loop entered behind the points [done ++ [prevPt]]. *)
Lemma animationLoop_from (SPEED : R) (rest : list SimulatedPoint.t) :
  forall (done : list SimulatedPoint.t) (prevPt : SimulatedPoint.t)
         (s : AnimState.t Cartesian3),
    loop (done ++ prevPt :: rest) SPEED (S (length done)) s =
    JS.Ok (AnimState.mk
             (arrival SPEED prevPt (AnimState.currentSeconds s) rest)
             (AnimState.posProp s
              ++ map place (positions SPEED prevPt (AnimState.currentSeconds s) rest))
             (AnimState.rotProp s
              ++ rotations SPEED prevPt (AnimState.currentSeconds s) rest)).
Proof.
  induction rest as [| pt rest IH]; intros done prevPt s.
  - rewrite animationLoop_exit by (rewrite length_app; simpl; lia).
    simpl. rewrite !app_nil_r. now destruct s.
  - rewrite animationLoop_enter by (rewrite length_app; simpl; lia).
    unfold animationStep, JS.index.
    replace (done ++ prevPt :: pt :: rest) with ((done ++ [prevPt]) ++ pt :: rest)
      by now rewrite <- app_assoc.
    replace (S (length done)) with (length (done ++ [prevPt]))
      by (rewrite length_app; simpl; lia).
    rewrite nth_error_app2 by lia. rewrite Nat.sub_diag. cbn [nth_error].
    replace (0 <? length (done ++ [prevPt]))%nat with true
      by (symmetry; apply Nat.ltb_lt; rewrite length_app; simpl; lia).
    rewrite nth_error_app1 by (rewrite length_app; simpl; lia).
    replace (length (done ++ [prevPt]) - 1)%nat with (length done)
      by (rewrite length_app; simpl; lia).
    rewrite nth_error_app2 by lia. rewrite Nat.sub_diag. cbn [nth_error JS.bind].
    rewrite IH. cbn [AnimState.currentSeconds AnimState.posProp AnimState.rotProp].
    cbn [positionsFrom rotationsFrom arrivalFrom map].
    f_equal. f_equal.
    + rewrite <- app_assoc. reflexivity.
    + destruct (negb (SimulatedPoint.isOrbit pt) && negb (SimulatedPoint.isOrbit prevPt));
        rewrite <- !app_assoc; reflexivity.
Qed.

(** The animation of a path of two or more points. *)
Lemma animation_closed (flightSpeed : R) (p0 : SimulatedPoint.t)
      (rest : list SimulatedPoint.t) :
  rest <> [] ->
  let SPEED := JS.Math_max (1 / 10) flightSpeed in
  animation Cartesian3 fromDegrees distance true (p0 :: rest) flightSpeed =
  JS.Ok (Some (Timeline.mk
                 ((0, point p0) :: map place (positions SPEED p0 0 rest))
                 ((0, - Cesium.toRadians (SimulatedPoint.heading p0))
                  :: rotations SPEED p0 0 rest)
                 (arrival SPEED p0 0 rest))).
Proof.
  intros Hrest SPEED. unfold animation.
  destruct rest as [| p1 rest]; [contradiction |].
  cbn [negb orb length Nat.ltb Nat.leb].
  rewrite animationLoop_enter by (simpl; lia).
  unfold animationStep at 1. cbn [JS.index nth_error Nat.ltb Nat.leb JS.bind].
  cbn [AnimState.currentSeconds AnimState.posProp AnimState.rotProp app].
  rewrite (animationLoop_from _ (p1 :: rest) [] p0).
  reflexivity.
Qed.

Lemma positions_points (SPEED : R) (rest : list SimulatedPoint.t) :
  forall prevPt cur, map snd (positions SPEED prevPt cur rest) = rest.
Proof.
  induction rest as [| pt rest IH]; intros prevPt cur; [reflexivity |].
  cbn. now rewrite IH.
Qed.

Lemma arrival_nth (SPEED : R) (rest : list SimulatedPoint.t) :
  forall prevPt cur,
    exists p,
      nth_error ((cur, prevPt) :: positions SPEED prevPt cur rest) (length rest)
      = Some (arrival SPEED prevPt cur rest, p).
Proof.
  induction rest as [| pt rest IH]; intros prevPt cur.
  - now exists prevPt.
  - cbn [positionsFrom arrivalFrom length nth_error]. apply IH.
Qed.

End Timeline.

Section TimelineFacts.

Variable Cartesian3 : Type.
Variable fromDegrees : R -> R -> R -> Cartesian3.
Variable distance : Cartesian3 -> Cartesian3 -> R.

Local Abbreviation point := (samplePoint Cartesian3 fromDegrees).
Local Abbreviation leg := (legSeconds Cartesian3 fromDegrees distance).
Local Abbreviation positions := (positionsFrom Cartesian3 fromDegrees distance).
Local Abbreviation rotations := (rotationsFrom Cartesian3 fromDegrees distance).
Local Abbreviation arrival := (arrivalFrom Cartesian3 fromDegrees distance).
Local Abbreviation place := (place Cartesian3 fromDegrees).

Lemma rotations_length (SPEED : R) (rest : list SimulatedPoint.t) :
  forall prevPt cur,
    length (rotations SPEED prevPt cur rest) = (length rest + plainLegs prevPt rest)%nat.
Proof.
  induction rest as [| pt rest IH]; intros prevPt cur; [reflexivity |].
  cbn [rotationsFrom plainLegs length]. rewrite length_app. cbn [length].
  rewrite IH.
  destruct (negb (SimulatedPoint.isOrbit pt) && negb (SimulatedPoint.isOrbit prevPt));
    simpl; lia.
Qed.

Lemma rotations_at_samples (SPEED : R) (rest : list SimulatedPoint.t) :
  forall prevPt cur k t p,
    nth_error (positions SPEED prevPt cur rest) k = Some (t, p) ->
    In (t, - Cesium.toRadians (SimulatedPoint.heading p))
       (rotations SPEED prevPt cur rest).
Proof.
  induction rest as [| pt rest IH]; intros prevPt cur k t p Hk.
  - now destruct k.
  - cbn [positionsFrom rotationsFrom] in *. apply in_or_app. right.
    destruct k as [| k].
    + cbn in Hk. injection Hk as <- <-. now left.
    + right. eapply IH. exact Hk.
Qed.

(** X29. The rotation samples of an animated path: every position sample
    has a rotation sample at its time with the negated heading of its point
    (in radians), and besides these there is one hold sample for each leg
    between two points that both lack the orbit flag. *)
Theorem timeline_rotations (p0 : SimulatedPoint.t) (rest : list SimulatedPoint.t)
        (flightSpeed : R) :
  rest <> [] ->
  exists tl,
    animation Cartesian3 fromDegrees distance true (p0 :: rest) flightSpeed
    = JS.Ok (Some tl) /\
    length (Timeline.rotationSamples tl)
    = (length (p0 :: rest) + plainLegs p0 rest)%nat /\
    forall k t c p,
      nth_error (Timeline.positionSamples tl) k = Some (t, c) ->
      nth_error (p0 :: rest) k = Some p ->
      In (t, - Cesium.toRadians (SimulatedPoint.heading p))
         (Timeline.rotationSamples tl).
Proof.
  intros Hrest.
  eexists. split; [now apply animation_closed |].
  cbn [Timeline.positionSamples Timeline.rotationSamples].
  set (SPEED := JS.Math_max (1 / 10) flightSpeed).
  split.
  - cbn [length]. now rewrite rotations_length.
  - intros k t c p Hk Hp.
    destruct k as [| k].
    + cbn in Hk, Hp. injection Hk as <- _. injection Hp as <-. now left.
    + right. cbn [nth_error] in Hk, Hp.
      rewrite nth_error_map in Hk.
      destruct (nth_error (positions SPEED p0 0 rest) k) as [[tk pk] |] eqn:Ek;
        [| discriminate].
      cbn in Hk. injection Hk as <- _.
      assert (Hpk : pk = p).
      { pose proof (positions_points Cartesian3 fromDegrees distance SPEED rest p0 0)
          as Hpts.
        apply (f_equal (fun l => nth_error l k)) in Hpts.
        rewrite nth_error_map, Ek, Hp in Hpts. cbn in Hpts. congruence. }
      subst pk. eapply rotations_at_samples. exact Ek.
Qed.

End TimelineFacts.

Lemma timeline_rotations_witness :
  exists tl,
    animation (R * R * R) flatFromDegrees flatDistance true
              (SimulatedPoint.mk 0 0 10 90 false :: [SimulatedPoint.mk 0 1 10 90 false]) 10
    = JS.Ok (Some tl) /\
    length (Timeline.rotationSamples tl) = 3%nat.
Proof.
  destruct (timeline_rotations (R * R * R) flatFromDegrees flatDistance
              (SimulatedPoint.mk 0 0 10 90 false)
              [SimulatedPoint.mk 0 1 10 90 false] 10)
    as (tl & Hrun & Hlen & _); [discriminate |].
  exists tl. split; [exact Hrun | exact Hlen].
Defined.

(* ===================================================================== *)
(** * The preview ring of an orbit waypoint                               *)
(* ===================================================================== *)

Section Preview.

Variable Cartesian3 : Type.
Variable fromDegrees : R -> R -> R -> Cartesian3.

Local Abbreviation ring := (previewLoop Cartesian3 fromDegrees).

Local Abbreviation toCartesian := (toCartesian Cartesian3 fromDegrees).

Lemma previewLoop_enter (wp : Waypoint.t) (i : nat) (points : list Cartesian3) :
  (i <= 360)%nat ->
  ring wp i points = ring wp (i + 5) (points ++ [toCartesian (previewVertex wp i)]).
Proof.
  intros Hi. rewrite previewLoop_equation_1.
  destruct (le_dec i 360); [reflexivity | contradiction].
Qed.

Lemma previewLoop_exit (wp : Waypoint.t) (i : nat) (points : list Cartesian3) :
  ~ (i <= 360)%nat -> ring wp i points = points.
Proof.
  intros Hi. rewrite previewLoop_equation_1.
  destruct (le_dec i 360); [contradiction | reflexivity].
Qed.

Lemma previewLoop_passes (wp : Waypoint.t) (n : nat) :
  forall i points,
    (forall k, (k < n)%nat -> (i + 5 * k <= 360)%nat) ->
    ~ (i + 5 * n <= 360)%nat ->
    ring wp i points =
    points ++ map (fun k => toCartesian (previewVertex wp (i + 5 * k))) (seq 0 n).
Proof.
  induction n as [| n IH]; intros i points Hin Hout.
  - rewrite previewLoop_exit by (replace i with (i + 5 * 0)%nat by lia; exact Hout).
    simpl. now rewrite app_nil_r.
  - rewrite previewLoop_enter
      by (specialize (Hin O (Nat.lt_0_succ n)); lia).
    rewrite IH.
    + cbn [seq map]. rewrite <- app_assoc. cbn [app].
      replace (i + 5 * 0)%nat with i by lia. do 2 f_equal.
      rewrite <- seq_shift, map_map. apply map_ext. intros k.
      do 2 f_equal. lia.
    + intros k Hk. specialize (Hin (S k)). lia.
    + lia.
Qed.

End Preview.

Lemma removeWaypoint_clears_witness :
  AppState.selectedId (removeWaypoint Scenario.editing "north")
  = AppState.selectedId Scenario.editing.
Proof.
  apply (removeWaypoint_clears Scenario.editing "north"). discriminate.
Defined.

(* ===================================================================== *)
(** * The generator on the heap: what a call does                         *)
(* ===================================================================== *)

Section EngineRun.

Variable fl : R -> R.

Lemma setHeap_same (w : Engine.World) : Engine.setHeap w (Engine.heap w) = w.
Proof. now destruct w. Qed.

Lemma setHeap_twice (w : Engine.World) (h h' : list (list SimulatedPoint.t)) :
  Engine.setHeap (Engine.setHeap w h) h' = Engine.setHeap w h'.
Proof. reflexivity. Qed.

Lemma store_newest (h0 : list (list SimulatedPoint.t)) (p q : list SimulatedPoint.t) :
  Engine.store (length h0) q (h0 ++ [p]) = h0 ++ [q].
Proof.
  unfold Engine.store. now rewrite firstn_exact, skipn_past.
Qed.

Lemma newest_array (h0 : list (list SimulatedPoint.t)) (p : list SimulatedPoint.t) :
  nth_error (h0 ++ [p]) (length h0) = Some p.
Proof. rewrite nth_error_app2 by lia. now rewrite Nat.sub_diag. Qed.

(** A push onto the newest array of the heap. *)
Lemma push_newest (w : Engine.World) (h0 : list (list SimulatedPoint.t))
      (p : list SimulatedPoint.t) (x : SimulatedPoint.t) :
  Engine.heap w = h0 ++ [p] ->
  Engine.push (length h0) x w =
  (fst (Engine.pushAll p [x]),
   Engine.setHeap w (h0 ++ [snd (Engine.pushAll p [x])])).
Proof.
  intros Hheap. unfold Engine.push. rewrite Hheap, newest_array.
  cbn [Engine.pushAll].
  destruct (Z.of_nat (length p) <? Engine.MAX_ARRAY_LENGTH)%Z; cbn [fst snd].
  - now rewrite store_newest.
  - now rewrite <- Hheap, setHeap_same.
Qed.

Lemma pushAll_cons (p xs : list SimulatedPoint.t) (x : SimulatedPoint.t) :
  Engine.pushAll p (x :: xs) =
  match Engine.pushAll p [x] with
  | (Engine.Normal _, q) => Engine.pushAll q xs
  | (Engine.Throw e, q) => (Engine.Throw e, q)
  end.
Proof.
  cbn [Engine.pushAll].
  now destruct (Z.of_nat (length p) <? Engine.MAX_ARRAY_LENGTH)%Z.
Qed.

Lemma orbitLoop_enter_heap (current : Waypoint.t) (angleStep totalSteps : R)
      (j path : nat) (w : Engine.World) :
  INR j <= totalSteps ->
  Engine.orbitLoop current angleStep totalSteps j path w =
  match Engine.push path (orbitSample current angleStep j) w with
  | (Engine.Normal _, w') =>
      Engine.orbitLoop current angleStep totalSteps (S j) path w'
  | (Engine.Throw e, w') => (Engine.Throw e, w')
  end.
Proof.
  intros H. rewrite Engine.orbitLoop_equation_1.
  destruct (Rle_dec (INR j) totalSteps); [| contradiction].
  cbn. destruct (Engine.push path (orbitSample current angleStep j) w) as [[u | e] w'];
    reflexivity.
Qed.

Lemma orbitLoop_exit_heap (current : Waypoint.t) (angleStep totalSteps : R)
      (j path : nat) (w : Engine.World) :
  ~ INR j <= totalSteps ->
  Engine.orbitLoop current angleStep totalSteps j path w = (Engine.Normal tt, w).
Proof.
  intros H. rewrite Engine.orbitLoop_equation_1.
  destruct (Rle_dec (INR j) totalSteps); [contradiction | reflexivity].
Qed.

(** [n] passes of the inner loop on the newest array. *)
Lemma orbitLoop_run (current : Waypoint.t) (angleStep totalSteps : R) (n : nat) :
  forall (j : nat) (w : Engine.World) (h0 : list (list SimulatedPoint.t))
         (p : list SimulatedPoint.t),
    Engine.heap w = h0 ++ [p] ->
    (forall k, (k < n)%nat -> INR (j + k) <= totalSteps) ->
    ~ INR (j + n) <= totalSteps ->
    Engine.orbitLoop current angleStep totalSteps j (length h0) w =
    (fst (Engine.pushAll p (map (orbitSample current angleStep) (seq j n))),
     Engine.setHeap w
       (h0 ++ [snd (Engine.pushAll p (map (orbitSample current angleStep) (seq j n)))])).
Proof.
  induction n as [| n IH]; intros j w h0 p Hheap Hin Hout.
  - rewrite Nat.add_0_r in Hout. rewrite orbitLoop_exit_heap by assumption.
    cbn. now rewrite <- Hheap, setHeap_same.
  - rewrite orbitLoop_enter_heap
      by (specialize (Hin O (Nat.lt_0_succ n)); now rewrite Nat.add_0_r in Hin).
    rewrite (push_newest w h0 p _ Hheap).
    cbn [seq map].
    rewrite (pushAll_cons p (map (orbitSample current angleStep) (seq (S j) n))).
    destruct (Engine.pushAll p [orbitSample current angleStep j]) as [[u | e] q];
      cbn [fst snd]; [| reflexivity].
    rewrite (IH (S j) _ h0 q); [now rewrite setHeap_twice | reflexivity | |].
    + intros k Hk. replace (S j + k)%nat with (j + S k)%nat by lia. apply Hin. lia.
    + replace (S j + n)%nat with (j + S n)%nat by lia. assumption.
Qed.

(** One iteration on the newest array pushes its segment. *)
Lemma iteration_run (waypoints : list Waypoint.t) (speed : R) (i : nat)
      (w : Engine.World) (h0 : list (list SimulatedPoint.t))
      (p : list SimulatedPoint.t) :
  (i < length waypoints)%nat ->
  Engine.heap w = h0 ++ [p] ->
  Engine.iteration fl waypoints speed i (length h0) w =
  (fst (Engine.pushAll p (Engine.segment fl waypoints speed i p)),
   Engine.setHeap w
     (h0 ++ [snd (Engine.pushAll p (Engine.segment fl waypoints speed i p))])).
Proof.
  intros Hi Hheap. unfold Engine.iteration, Engine.segment.
  destruct (JS.index waypoints i) as [current |] eqn:Hcur;
    [| apply nth_error_None in Hcur; lia].
  destruct (WaypointType_eqb (Waypoint.type current) ORBIT).
  - apply orbitLoop_run; [assumption | |].
    + intros k Hk. cbn [Nat.add]. now apply stepCount_below.
    + cbn [Nat.add]. apply stepCount_above.
  - destruct (JS.index waypoints (i + 1)) as [next |].
    + now apply push_newest.
    + destruct (0 <? i)%nat.
      * unfold Engine.bind, Engine.lastOf. rewrite Hheap, newest_array.
        now apply push_newest.
      * now apply push_newest.
Qed.

Lemma waypointLoop_enter_heap (waypoints : list Waypoint.t) (speed : R)
      (i path : nat) (w : Engine.World) :
  (i < length waypoints)%nat ->
  Engine.waypointLoop fl waypoints speed i path w =
  match Engine.iteration fl waypoints speed i path w with
  | (Engine.Normal _, w') => Engine.waypointLoop fl waypoints speed (S i) path w'
  | (Engine.Throw e, w') => (Engine.Throw e, w')
  end.
Proof.
  intros H. rewrite Engine.waypointLoop_equation_1.
  destruct (lt_dec i (length waypoints)); [| contradiction].
  cbn. destruct (Engine.iteration fl waypoints speed i path w) as [[u | e] w'];
    reflexivity.
Qed.

Lemma waypointLoop_exit_heap (waypoints : list Waypoint.t) (speed : R)
      (i path : nat) (w : Engine.World) :
  ~ (i < length waypoints)%nat ->
  Engine.waypointLoop fl waypoints speed i path w = (Engine.Normal tt, w).
Proof.
  intros H. rewrite Engine.waypointLoop_equation_1.
  destruct (lt_dec i (length waypoints)); [contradiction | reflexivity].
Qed.

(** The outer loop on the newest array. *)
Lemma waypointLoop_run (waypoints : list Waypoint.t) (speed : R) (n : nat) :
  forall (i : nat) (w : Engine.World) (h0 : list (list SimulatedPoint.t))
         (p : list SimulatedPoint.t),
    (i + n = length waypoints)%nat ->
    Engine.heap w = h0 ++ [p] ->
    Engine.waypointLoop fl waypoints speed i (length h0) w =
    (fst (Engine.runFrom fl waypoints speed n i p),
     Engine.setHeap w (h0 ++ [snd (Engine.runFrom fl waypoints speed n i p)])).
Proof.
  induction n as [| n IH]; intros i w h0 p Hlen Hheap.
  - rewrite waypointLoop_exit_heap by lia. cbn.
    now rewrite <- Hheap, setHeap_same.
  - rewrite waypointLoop_enter_heap by lia.
    rewrite (iteration_run waypoints speed i w h0 p) by (lia || assumption).
    cbn [Engine.runFrom].
    destruct (Engine.pushAll p (Engine.segment fl waypoints speed i p)) as [[u | e] q];
      cbn [fst snd]; [| reflexivity].
    rewrite (IH (S i) _ h0 q); [now rewrite setHeap_twice | lia | reflexivity].
Qed.

(** A call allocates one array, fills it as [runFrom] says and touches
    nothing else. *)
Lemma generate_run (waypoints : list Waypoint.t) (speed : R) (w : Engine.World) :
  Engine.generateSimulationPath fl waypoints speed w =
  (Engine.returning (length (Engine.heap w))
     (fst (Engine.runFrom fl waypoints speed (length waypoints) 0 [])),
   Engine.setHeap w
     (Engine.heap w
      ++ [snd (Engine.runFrom fl waypoints speed (length waypoints) 0 [])])).
Proof.
  unfold Engine.generateSimulationPath.
  destruct (length waypoints <? 1)%nat eqn:Hlen.
  - apply Nat.ltb_lt in Hlen.
    replace (length waypoints) with O by lia. reflexivity.
  - unfold Engine.bind, Engine.newArray, Engine.ret.
    rewrite (waypointLoop_run waypoints speed (length waypoints) 0 _
                              (Engine.heap w) []); [| lia | reflexivity].
    rewrite setHeap_twice.
    destruct (Engine.runFrom fl waypoints speed (length waypoints) 0 [])
      as [[u | e] q]; reflexivity.
Qed.

End EngineRun.

(* ===================================================================== *)
(** * Arrays of bounded length                                            *)
(* ===================================================================== *)

Section Capacity.

Lemma pushAll_fits (xs : list SimulatedPoint.t) :
  forall p,
    (Z.of_nat (length p) + Z.of_nat (length xs) <= Engine.MAX_ARRAY_LENGTH)%Z ->
    Engine.pushAll p xs = (Engine.Normal tt, p ++ xs).
Proof.
  induction xs as [| x xs IH]; intros p Hfit.
  - cbn. now rewrite app_nil_r.
  - cbn [Engine.pushAll]. cbn [length] in Hfit.
    destruct (Z.of_nat (length p) <? Engine.MAX_ARRAY_LENGTH)%Z eqn:Hroom.
    + rewrite IH; [now rewrite <- app_assoc |].
      rewrite length_app. cbn [length]. lia.
    + apply Z.ltb_ge in Hroom. lia.
Qed.

Lemma pushAll_normal (xs : list SimulatedPoint.t) :
  forall p u q,
    Engine.pushAll p xs = (Engine.Normal u, q) ->
    q = p ++ xs /\
    (xs <> [] -> (Z.of_nat (length q) <= Engine.MAX_ARRAY_LENGTH)%Z).
Proof.
  induction xs as [| x xs IH]; intros p u q Hrun.
  - cbn in Hrun. injection Hrun as _ <-. rewrite app_nil_r. split; [reflexivity |].
    intros H. contradiction.
  - cbn [Engine.pushAll] in Hrun.
    destruct (Z.of_nat (length p) <? Engine.MAX_ARRAY_LENGTH)%Z eqn:Hroom;
      [| discriminate].
    apply Z.ltb_lt in Hroom.
    destruct (IH _ _ _ Hrun) as [-> Hbound].
    split; [now rewrite <- app_assoc |].
    intros _. destruct xs as [| y ys].
    + rewrite app_nil_r, length_app. cbn [length]. lia.
    + apply Hbound. discriminate.
Qed.

(** The array never grows past its greatest length, and pushing throws
    nothing but the [RangeError] of a full array. *)
Lemma pushAll_bound (xs : list SimulatedPoint.t) :
  forall p c q,
    (Z.of_nat (length p) <= Engine.MAX_ARRAY_LENGTH)%Z ->
    Engine.pushAll p xs = (c, q) ->
    (Z.of_nat (length q) <= Engine.MAX_ARRAY_LENGTH)%Z /\
    (forall e, c = Engine.Throw e ->
               e = Engine.RangeError /\
               Z.of_nat (length q) = Engine.MAX_ARRAY_LENGTH).
Proof.
  induction xs as [| x xs IH]; intros p c q Hp Hrun.
  - cbn in Hrun. injection Hrun as <- <-. split; [assumption |].
    intros e He. discriminate.
  - cbn [Engine.pushAll] in Hrun.
    destruct (Z.of_nat (length p) <? Engine.MAX_ARRAY_LENGTH)%Z eqn:Hroom.
    + apply Z.ltb_lt in Hroom. apply (IH (p ++ [x])); [| assumption].
      rewrite length_app. cbn [length]. lia.
    + apply Z.ltb_ge in Hroom. injection Hrun as <- <-.
      split; [assumption |]. intros e He. injection He as <-. split; [reflexivity | lia].
Qed.

Lemma pushAll_overflow (xs : list SimulatedPoint.t) :
  forall p,
    (Z.of_nat (length p) <= Engine.MAX_ARRAY_LENGTH)%Z ->
    (Engine.MAX_ARRAY_LENGTH < Z.of_nat (length p) + Z.of_nat (length xs))%Z ->
    fst (Engine.pushAll p xs) = Engine.Throw Engine.RangeError.
Proof.
  induction xs as [| x xs IH]; intros p Hp Hover.
  - cbn [length] in Hover. lia.
  - cbn [Engine.pushAll]. cbn [length] in Hover.
    destruct (Z.of_nat (length p) <? Engine.MAX_ARRAY_LENGTH)%Z eqn:Hroom;
      [| reflexivity].
    apply Z.ltb_lt in Hroom. apply IH.
    + rewrite length_app. cbn [length]. lia.
    + rewrite length_app. cbn [length]. lia.
Qed.

Variable fl : R -> R.

Lemma runFrom_bound (waypoints : list Waypoint.t) (speed : R) (n : nat) :
  forall i p c q,
    (Z.of_nat (length p) <= Engine.MAX_ARRAY_LENGTH)%Z ->
    Engine.runFrom fl waypoints speed n i p = (c, q) ->
    (Z.of_nat (length q) <= Engine.MAX_ARRAY_LENGTH)%Z /\
    (forall e, c = Engine.Throw e ->
               e = Engine.RangeError /\
               Z.of_nat (length q) = Engine.MAX_ARRAY_LENGTH).
Proof.
  induction n as [| n IH]; intros i p c q Hp Hrun.
  - cbn in Hrun. injection Hrun as <- <-. split; [assumption |].
    intros e He. discriminate.
  - cbn [Engine.runFrom] in Hrun.
    destruct (Engine.pushAll p (Engine.segment fl waypoints speed i p))
      as [[u | e] r] eqn:Hpush.
    + apply (IH (S i) r); [| assumption].
      now apply (pushAll_bound _ _ _ _ Hp Hpush).
    + injection Hrun as <- <-. now apply (pushAll_bound _ _ _ _ Hp Hpush).
Qed.

Lemma runFrom_grows (waypoints : list Waypoint.t) (speed : R) (n : nat) :
  forall i p u q,
    Engine.runFrom fl waypoints speed n i p = (Engine.Normal u, q) ->
    exists post, q = p ++ post.
Proof.
  induction n as [| n IH]; intros i p u q Hrun.
  - cbn in Hrun. injection Hrun as _ <-. exists []. now rewrite app_nil_r.
  - cbn [Engine.runFrom] in Hrun.
    destruct (Engine.pushAll p (Engine.segment fl waypoints speed i p))
      as [[v | e] r] eqn:Hpush; [| discriminate].
    destruct (pushAll_normal _ _ _ _ Hpush) as [-> _].
    destruct (IH _ _ _ _ Hrun) as [post ->].
    eexists. now rewrite <- app_assoc.
Qed.

(** A loop that ends normally ended normally at every index on its way. *)
Lemma runFrom_split (waypoints : list Waypoint.t) (speed : R) (a b : nat) :
  forall i p u q,
    Engine.runFrom fl waypoints speed (a + b) i p = (Engine.Normal u, q) ->
    exists r,
      Engine.runFrom fl waypoints speed a i p = (Engine.Normal tt, r) /\
      Engine.runFrom fl waypoints speed b (i + a) r = (Engine.Normal u, q).
Proof.
  induction a as [| a IH]; intros i p u q Hrun.
  - exists p. split; [reflexivity |]. now rewrite Nat.add_0_r.
  - cbn [Nat.add Engine.runFrom] in *.
    destruct (Engine.pushAll p (Engine.segment fl waypoints speed i p))
      as [[v | e] r] eqn:Hpush; [| discriminate].
    destruct (IH _ _ _ _ Hrun) as [r' [Ha Hb]].
    exists r'. split; [assumption |].
    now replace (i + S a)%nat with (S i + a)%nat by lia.
Qed.

End Capacity.

(* ===================================================================== *)
(** * Determinism                                                         *)
(* ===================================================================== *)

(** C8. Two invocations on the same waypoint list and the same speed, in
    any two states of the machine (different clocks, different states of
    the random generator, different heaps, the second possibly the state
    the first has left), end the same way and produce arrays with the same
    contents; each allocates its own array and leaves the clock, the
    random generator and the arrays that were there as they are. *)
Theorem invocations_agree (fl : R -> R) (waypoints : list Waypoint.t) (speed : R)
        (w1 w2 : Engine.World) :
  exists (c : Engine.Completion unit) (path : list SimulatedPoint.t),
    Engine.generateSimulationPath fl waypoints speed w1 =
    (Engine.returning (length (Engine.heap w1)) c,
     Engine.mkWorld (Engine.clock w1) (Engine.entropy w1) (Engine.heap w1 ++ [path])) /\
    Engine.generateSimulationPath fl waypoints speed w2 =
    (Engine.returning (length (Engine.heap w2)) c,
     Engine.mkWorld (Engine.clock w2) (Engine.entropy w2) (Engine.heap w2 ++ [path])).
Proof.
  exists (fst (Engine.runFrom fl waypoints speed (length waypoints) 0 [])),
         (snd (Engine.runFrom fl waypoints speed (length waypoints) 0 [])).
  split; apply generate_run.
Qed.

(* ===================================================================== *)
(** * Errors                                                              *)
(* ===================================================================== *)

Lemma exact_Rounding : Engine.Rounding Engine.exact.
Proof.
  unfold Engine.Rounding, Engine.exact. repeat split; [tauto | lra].
Qed.

Lemma engine_lapDivisor_pos (fl : R -> R) (speed : R) :
  Engine.Rounding fl -> 0 < Engine.lapDivisor fl speed.
Proof.
  intros (_ & _ & Htenth). unfold Engine.lapDivisor, JS.Math_max.
  pose proof (Rmax_l (fl (1 / 10)) speed). lra.
Qed.

Lemma engine_pointsPerLap_Z (fl : R -> R) (orbitRadius speed : R) :
  Engine.pointsPerLap fl orbitRadius speed =
  IZR (Z.max (Zceil (fl (fl (fl (fl (2 * fl PI) * orbitRadius)
                             / Rmax (fl (1 / 10)) speed) / 1))) 24).
Proof. unfold Engine.pointsPerLap. apply Math_max_ceil_24. Qed.

Lemma engine_pointsPerLap_exact_zero (speed : R) :
  Engine.pointsPerLap Engine.exact 0 speed = 24.
Proof.
  rewrite engine_pointsPerLap_Z. unfold Engine.exact.
  replace (2 * PI * 0 / Rmax (1 / 10) speed / 1) with (IZR 0)
    by (unfold Rdiv; ring).
  unfold Zceil. rewrite ZfloorNZ. reflexivity.
Qed.

Lemma stepCount_Z (t : R) :
  Z.of_nat (stepCount t) = Z.max 0 (Zfloor t + 1).
Proof. unfold stepCount. lia. Qed.

(** A mission of one orbit of radius 0 (24 samples a lap, whatever the
    rounding) with 178956971 laps or more: the array is full before the
    orbit is done, and the call ends with the [RangeError] of the push
    that finds it full. *)
Lemma lone_orbit_overflows (w : Waypoint.t) (L : Z) (speed : R)
      (world : Engine.World) :
  Waypoint.type w = ORBIT ->
  Waypoint.orbitRadius w = 0 ->
  Waypoint.orbitLaps w = IZR L ->
  (178956971 <= L)%Z ->
  fst (Engine.generateSimulationPath Engine.exact [w] speed world)
  = Engine.Throw Engine.RangeError /\
  exists path,
    Engine.heap (snd (Engine.generateSimulationPath Engine.exact [w] speed world))
    = Engine.heap world ++ [path] /\
    Z.of_nat (length path) = Engine.MAX_ARRAY_LENGTH.
Proof.
  intros Hty Hr Hlaps HL.
  rewrite generate_run. cbn [fst snd length Engine.heap Engine.setHeap].
  destruct (Engine.runFrom Engine.exact [w] speed 1 0 []) as [c path] eqn:Hrun.
  assert (Hthrow : c = Engine.Throw Engine.RangeError).
  { cbn [Engine.runFrom] in Hrun.
    assert (Hover : fst (Engine.pushAll [] (Engine.segment Engine.exact [w] speed 0 []))
                    = Engine.Throw Engine.RangeError).
    { apply pushAll_overflow.
      - cbn [length]. unfold Engine.MAX_ARRAY_LENGTH. lia.
      - unfold Engine.segment. cbn [JS.index nth_error]. rewrite Hty.
        cbn [WaypointType_eqb].
        rewrite length_map, length_seq, stepCount_Z.
        rewrite Hr, Hlaps, engine_pointsPerLap_exact_zero.
        rewrite or_nonzero by (apply not_0_IZR; lia).
        unfold Engine.exact. rewrite <- mult_IZR, ZfloorZ.
        cbn [length]. unfold Engine.MAX_ARRAY_LENGTH. lia. }
    destruct (Engine.pushAll [] (Engine.segment Engine.exact [w] speed 0 []))
      as [[u | e] q]; cbn [fst] in Hover; [discriminate |].
    injection Hrun as <- _. congruence. }
  subst c. split; [reflexivity |].
  exists path. split; [reflexivity |].
  destruct (runFrom_bound Engine.exact [w] speed 1 0 []
                          (Engine.Throw Engine.RangeError) path) as [_ Hfull];
    [cbn [length]; unfold Engine.MAX_ARRAY_LENGTH; lia | exact Hrun |].
  now destruct (Hfull Engine.RangeError eq_refl).
Qed.

(** C6, as stated, fails: an orbit with 10^12 laps (radius 0, so 24
    samples a lap) asks for more samples than an array can hold, and the
    call ends with the [RangeError] of [path.push]. *)
Lemma marathon_overflows :
  fst (Engine.generateSimulationPath Engine.exact [Scenario.marathon] 10 Scenario.boot)
  = Engine.Throw Engine.RangeError.
Proof.
  rewrite generate_run. cbn [fst length Engine.runFrom].
  assert (Hover : fst (Engine.pushAll []
                         (Engine.segment Engine.exact [Scenario.marathon] 10 0 []))
                  = Engine.Throw Engine.RangeError).
  { apply pushAll_overflow.
    - cbn [length]. unfold Engine.MAX_ARRAY_LENGTH. lia.
    - unfold Engine.segment.
      cbn [JS.index nth_error Scenario.marathon Waypoint.type WaypointType_eqb
           Waypoint.orbitRadius Waypoint.orbitLaps].
      rewrite length_map, length_seq, stepCount_Z.
      rewrite engine_pointsPerLap_exact_zero.
      rewrite or_nonzero by lra.
      unfold Engine.exact. rewrite <- mult_IZR, ZfloorZ.
      cbn [length]. unfold Engine.MAX_ARRAY_LENGTH. lia. }
  destruct (Engine.pushAll [] (Engine.segment Engine.exact [Scenario.marathon] 10 0 []))
    as [[u | e] q]; cbn [fst] in Hover; [discriminate |].
  cbn. congruence.
Qed.

(** C6, amended. A call never throws a [TypeError] and never divides by
    zero: the divisor of the lap time is max(0.1, speed), which is positive
    and equals 0.1 for every speed [<= 0], and [pointsPerLap] is at least
    24.  The call returns the array it allocated, unless a push finds that
    array full (2^32 - 1 samples): then, and only then, it throws, and what
    it throws is a [RangeError]. *)
Theorem throws_only_when_full (fl : R -> R) (waypoints : list Waypoint.t)
        (speed : R) (w : Engine.World) :
  Engine.Rounding fl ->
  (exists path,
      Engine.heap (snd (Engine.generateSimulationPath fl waypoints speed w))
      = Engine.heap w ++ [path] /\
      (Z.of_nat (length path) <= Engine.MAX_ARRAY_LENGTH)%Z /\
      (fst (Engine.generateSimulationPath fl waypoints speed w)
       = Engine.Normal (length (Engine.heap w)) \/
       fst (Engine.generateSimulationPath fl waypoints speed w)
       = Engine.Throw Engine.RangeError /\
       Z.of_nat (length path) = Engine.MAX_ARRAY_LENGTH)) /\
  0 < Engine.lapDivisor fl speed /\
  (speed <= 0 -> Engine.lapDivisor fl speed = fl (1 / 10)) /\
  (forall orbitRadius, 24 <= Engine.pointsPerLap fl orbitRadius speed).
Proof.
  intros HR. split; [| split; [| split]].
  - rewrite generate_run. cbn [fst snd Engine.heap Engine.setHeap].
    destruct (Engine.runFrom fl waypoints speed (length waypoints) 0 [])
      as [c path] eqn:Hrun.
    exists path. split; [reflexivity |].
    destruct (runFrom_bound fl waypoints speed (length waypoints) 0 [] c path)
      as [Hlen Hthrow]; [cbn; unfold Engine.MAX_ARRAY_LENGTH; lia | assumption |].
    split; [assumption |].
    destruct c as [u | e]; cbn [fst Engine.returning]; [now left | right].
    destruct (Hthrow e eq_refl) as [-> Hfull]. now split.
  - now apply engine_lapDivisor_pos.
  - intros Hs. destruct HR as (_ & _ & Htenth).
    unfold Engine.lapDivisor, JS.Math_max. apply Rmax_left. lra.
  - intros r. unfold Engine.pointsPerLap. apply Math_max_24.
Qed.

Lemma throws_only_when_full_witness :
  (exists path,
      Engine.heap (snd (Engine.generateSimulationPath Engine.exact
                          [Scenario.start; Scenario.orbit30] (-5) Scenario.busy))
      = Engine.heap Scenario.busy ++ [path] /\
      (Z.of_nat (length path) <= Engine.MAX_ARRAY_LENGTH)%Z /\
      (fst (Engine.generateSimulationPath Engine.exact
              [Scenario.start; Scenario.orbit30] (-5) Scenario.busy)
       = Engine.Normal (length (Engine.heap Scenario.busy)) \/
       fst (Engine.generateSimulationPath Engine.exact
              [Scenario.start; Scenario.orbit30] (-5) Scenario.busy)
       = Engine.Throw Engine.RangeError /\
       Z.of_nat (length path) = Engine.MAX_ARRAY_LENGTH)) /\
  Engine.lapDivisor Engine.exact (-5) = Engine.exact (1 / 10).
Proof.
  destruct (throws_only_when_full Engine.exact [Scenario.start; Scenario.orbit30]
                                  (-5) Scenario.busy exact_Rounding)
    as (Hrun & _ & Hclamp & _).
  split; [exact Hrun |]. apply Hclamp. lra.
Defined.

(* ===================================================================== *)
(** * The number of samples of an orbit                                   *)
(* ===================================================================== *)

Lemma two_53 : (2 ^ 53 = 9007199254740992)%Z.
Proof. reflexivity. Qed.

(** The rounded product of [pointsPerLap] and a whole number of laps: the
    product itself when it is at most 2^53, and at least 2^53 otherwise. *)
Lemma rounded_steps (fl : R -> R) (P L : Z) :
  Engine.Rounding fl ->
  (0 <= P * L)%Z ->
  ((P * L <= 2 ^ 53)%Z /\ fl (IZR P * IZR L) = IZR (P * L)) \/
  ((2 ^ 53 < P * L)%Z /\ IZR (2 ^ 53) <= fl (IZR P * IZR L)).
Proof.
  intros (Hmono & Hint & _) Hpos. rewrite <- mult_IZR.
  destruct (Z_le_gt_dec (P * L) (2 ^ 53)) as [Hle | Hgt].
  - left. split; [assumption |]. apply Hint. lia.
  - right. split; [lia |].
    rewrite <- (Hint (2 ^ 53)%Z) by (rewrite two_53; lia).
    apply Hmono. apply IZR_le. lia.
Qed.

(** C1, as stated, fails: for an orbit of radius 0 with 200000000 laps the
    count of the claim is 24 * 200000000 + 1 = 4800000001 samples, more
    than an array holds; the call throws, and the array it leaves behind
    has 4294967295 samples.  (At radius 0 every intermediate result is a
    whole number, so rounding plays no part.) *)
Lemma endurance_cut_short :
  Waypoint.type Scenario.endurance = ORBIT /\
  Waypoint.orbitLaps Scenario.endurance = 200000000 /\
  Rmax 24 (IZR (Zceil (2 * PI * Waypoint.orbitRadius Scenario.endurance
                       / Rmax (1 / 10) 10 / 1))) * 200000000 + 1 = 4800000001 /\
  fst (Engine.generateSimulationPath Engine.exact [Scenario.endurance] 10 Scenario.boot)
  = Engine.Throw Engine.RangeError /\
  exists path,
    Engine.heap (snd (Engine.generateSimulationPath Engine.exact [Scenario.endurance]
                                                     10 Scenario.boot))
    = [path] /\
    Z.of_nat (length path) = 4294967295%Z.
Proof.
  split; [reflexivity |]. split; [reflexivity |]. split.
  - cbn [Scenario.endurance Waypoint.orbitRadius].
    replace (2 * PI * 0 / Rmax (1 / 10) 10 / 1) with (IZR 0) by (unfold Rdiv; ring).
    unfold Zceil. rewrite ZfloorNZ. cbn [Z.opp].
    rewrite Rmax_left by lra. lra.
  - apply (lone_orbit_overflows Scenario.endurance 200000000 10 Scenario.boot);
      [reflexivity | reflexivity | reflexivity | lia].
Qed.

(** C1, amended. In every call that returns, an orbit waypoint of radius [r] with a
    whole number [L >= 1] of laps has contributed, at speed [s], exactly
    [pointsPerLap * L + 1] samples to the returned array, where
    [pointsPerLap = max(24, ceil(2*PI*r / max(0.1, s) / 1.0))] as the doubles
    evaluate it ([fl] after each operation that rounds). *)
Theorem orbit_sample_count (fl : R -> R) (waypoints : list Waypoint.t) (speed : R)
        (i : nat) (w : Waypoint.t) (L : Z) (world world' : Engine.World)
        (ref : nat) :
  Engine.Rounding fl ->
  JS.index waypoints i = Some w ->
  Waypoint.type w = ORBIT ->
  Waypoint.orbitLaps w = IZR L ->
  (1 <= L)%Z ->
  Engine.generateSimulationPath fl waypoints speed world = (Engine.Normal ref, world') ->
  exists pre seg post,
    nth_error (Engine.heap world') ref = Some (pre ++ seg ++ post) /\
    Engine.runFrom fl waypoints speed i 0 [] = (Engine.Normal tt, pre) /\
    (forall h0 v,
        Engine.heap v = h0 ++ [pre] ->
        Engine.iteration fl waypoints speed i (length h0) v =
        (Engine.Normal tt, Engine.setHeap v (h0 ++ [pre ++ seg]))) /\
    INR (length seg) =
    Rmax 24 (IZR (Zceil (fl (fl (fl (fl (2 * fl PI) * Waypoint.orbitRadius w)
                               / Rmax (fl (1 / 10)) speed) / 1))))
    * IZR L + 1.
Proof.
  intros HR Hidx Hty Hlaps HL Hcall.
  pose proof (index_in_bounds _ _ _ Hidx) as Hi.
  rewrite generate_run in Hcall.
  destruct (Engine.runFrom fl waypoints speed (length waypoints) 0 [])
    as [c final] eqn:Hrun.
  cbn [fst snd] in Hcall.
  destruct c as [u | e]; cbn [Engine.returning] in Hcall; [| discriminate].
  injection Hcall as <- <-.
  (* the loop up to index [i], iteration [i], and the rest *)
  replace (length waypoints) with (i + S (length waypoints - S i))%nat in Hrun by lia.
  destruct (runFrom_split fl waypoints speed _ _ _ _ _ _ Hrun) as [pre [Hpre Hrest]].
  cbn [Nat.add] in Hrest. cbn [Engine.runFrom] in Hrest.
  destruct (Engine.pushAll pre (Engine.segment fl waypoints speed i pre))
    as [[v | e] mid] eqn:Hpush; [| discriminate].
  destruct (pushAll_normal _ _ _ _ Hpush) as [-> Hroom].
  destruct (runFrom_grows fl waypoints speed _ _ _ _ _ Hrest) as [post ->].
  exists pre, (Engine.segment fl waypoints speed i pre), post.
  split; [| split; [| split]].
  - cbn [Engine.heap Engine.setHeap]. rewrite newest_array. now rewrite <- app_assoc.
  - exact Hpre.
  - intros h0 v0 Hheap.
    rewrite (iteration_run fl waypoints speed i v0 h0 pre Hi Hheap), Hpush.
    destruct v. reflexivity.
  - (* the length of the segment *)
    unfold Engine.segment in *. rewrite Hidx, Hty in *. cbn [WaypointType_eqb] in *.
    rewrite length_map, length_seq.
    rewrite Hlaps, or_nonzero in * by (apply not_0_IZR; lia).
    rewrite engine_pointsPerLap_Z in *.
    set (P := Z.max _ 24) in *.
    assert (HP : (24 <= P)%Z) by (unfold P; lia).
    rewrite Rmax_comm.
    replace (Rmax (IZR (Zceil (fl (fl (fl (fl (2 * fl PI) * Waypoint.orbitRadius w)
                                       / Rmax (fl (1 / 10)) speed) / 1)))) 24)
      with (IZR P)
      by (unfold P; symmetry; apply (Math_max_ceil_24 _)).
    destruct (rounded_steps fl P L HR) as [[Hsmall Hexact] | [Hbig Hlow]]; [nia | |].
    + rewrite Hexact, stepCount_IZR by nia.
      rewrite INR_IZR_INZ, Z2Nat.id by nia.
      now rewrite plus_IZR, mult_IZR.
    + exfalso.
      assert (Hfloor : (2 ^ 53 <= Zfloor (fl (IZR P * IZR L)%R))%Z)
        by now apply Zfloor_lub.
      assert (Hsteps : (2 ^ 53 < Z.of_nat (stepCount (fl (IZR P * IZR L)%R)))%Z)
        by (rewrite stepCount_Z; lia).
      rewrite two_53 in Hsteps.
      assert (Hne : map (orbitSample w (360 / IZR P))
                        (seq 0 (stepCount (fl (IZR P * IZR L)))) <> []).
      { intros Hnil. apply (f_equal (@length _)) in Hnil.
        rewrite length_map, length_seq in Hnil. cbn [length] in Hnil. lia. }
      specialize (Hroom Hne).
      rewrite length_app, length_map, length_seq in Hroom.
      unfold Engine.MAX_ARRAY_LENGTH in Hroom. lia.
Qed.

Lemma hover_returns :
  Engine.generateSimulationPath Engine.exact [Scenario.hover] 10 Scenario.boot =
  (Engine.Normal 0%nat,
   snd (Engine.generateSimulationPath Engine.exact [Scenario.hover] 10 Scenario.boot)).
Proof.
  rewrite generate_run. cbn [fst snd length Engine.runFrom Engine.heap Scenario.boot].
  rewrite pushAll_fits; [reflexivity |].
  unfold Engine.segment.
  cbn [JS.index nth_error Scenario.hover Waypoint.type WaypointType_eqb
       Waypoint.orbitRadius Waypoint.orbitLaps].
  rewrite length_map, length_seq, stepCount_Z.
  rewrite engine_pointsPerLap_exact_zero, or_nonzero by lra.
  unfold Engine.exact. rewrite <- mult_IZR, ZfloorZ.
  cbn [length]. unfold Engine.MAX_ARRAY_LENGTH. lia.
Qed.

Lemma orbit_sample_count_witness :
  exists pre seg post,
    nth_error
      (Engine.heap
         (snd (Engine.generateSimulationPath Engine.exact [Scenario.hover] 10
                                             Scenario.boot))) 0
    = Some (pre ++ seg ++ post) /\
    Engine.runFrom Engine.exact [Scenario.hover] 10 0 0 [] = (Engine.Normal tt, pre) /\
    (forall h0 v,
        Engine.heap v = h0 ++ [pre] ->
        Engine.iteration Engine.exact [Scenario.hover] 10 0 (length h0) v =
        (Engine.Normal tt, Engine.setHeap v (h0 ++ [pre ++ seg]))) /\
    INR (length seg) =
    Rmax 24 (IZR (Zceil (Engine.exact
                           (Engine.exact
                              (Engine.exact (Engine.exact (2 * Engine.exact PI) * 0)
                               / Rmax (Engine.exact (1 / 10)) 10) / 1))))
    * IZR 2 + 1.
Proof.
  apply (orbit_sample_count Engine.exact [Scenario.hover] 10 0 Scenario.hover 2
                            Scenario.boot _ 0 exact_Rounding);
    [reflexivity | reflexivity | reflexivity | lia | exact hover_returns].
Defined.

(* ===================================================================== *)
(** * Empty paths, the run button, the timeline and the preview ring      *)
(* ===================================================================== *)

(** X1. A mission that holds only orbits with a negative lap count (or
    nothing at all) yields the empty path; and a mission that yields the
    empty path holds no plain waypoint. *)
Theorem empty_path_conditions (waypoints : list Waypoint.t) (speed : R) :
  (Forall negativeOrbit waypoints ->
   generateSimulationPath waypoints speed = JS.Ok []) /\
  (generateSimulationPath waypoints speed = JS.Ok [] ->
   Forall (fun w => Waypoint.type w = ORBIT) waypoints).
Proof.
  split.
  - apply generate_empty_iff.
  - intros Hempty. apply generate_empty_iff in Hempty.
    apply Forall_impl with (P := negativeOrbit); [| assumption].
    intros w [Hty _]. exact Hty.
Qed.

Lemma empty_path_conditions_witness :
  generateSimulationPath [Scenario.orbit30_back] 10 = JS.Ok [].
Proof.
  apply (empty_path_conditions [Scenario.orbit30_back] 10).
  constructor; [| constructor].
  split; [reflexivity | simpl; lra].
Defined.

(** X24. The run button on an idle editor: with a mission that is empty
    or holds only orbits with a negative lap count it shows the alert and
    changes nothing; with a mission of one or more plain waypoints and no
    orbit it stores a path of one sample per waypoint and starts the
    simulation. *)
Theorem run_from_idle (st : AppState.t) :
  AppState.isSimulating st = false ->
  (Forall negativeOrbit (AppState.waypoints st) ->
   handleRunSimulation st = JS.Ok (st, true)) /\
  (AppState.waypoints st <> [] ->
   Forall (fun w => Waypoint.type w = NORMAL) (AppState.waypoints st) ->
   exists path,
     length path = length (AppState.waypoints st) /\
     handleRunSimulation st =
     JS.Ok (AppState.mk (AppState.waypoints st) (AppState.selectedId st)
                        (AppState.globalSpeed st) true path, false)).
Proof.
  intros Hidle. unfold handleRunSimulation. rewrite Hidle. split.
  - intros Hall.
    apply generate_empty_iff with (speed := AppState.globalSpeed st) in Hall.
    now rewrite Hall.
  - intros Hsome Hplain.
    destruct (plain_prefix (AppState.waypoints st) (AppState.globalSpeed st) Hplain
                           (length (AppState.waypoints st)))
      as [path [Hpath [Hlen _]]]; [lia |].
    exists path. split; [assumption |].
    rewrite generateSimulationPath_pathBefore, Hpath. cbn [JS.bind].
    destruct path as [| p path]; [| reflexivity].
    destruct (AppState.waypoints st); [contradiction | discriminate].
Qed.

Lemma run_from_idle_witness :
  exists path,
    length path = length (AppState.waypoints Scenario.editing) /\
    handleRunSimulation Scenario.editing =
    JS.Ok (AppState.mk (AppState.waypoints Scenario.editing)
                       (AppState.selectedId Scenario.editing)
                       (AppState.globalSpeed Scenario.editing) true path, false).
Proof.
  apply (run_from_idle Scenario.editing).
  - reflexivity.
  - discriminate.
  - repeat constructor.
Defined.

(** X28. The timeline of an animated path of two or more points has one
    position sample per point, in the order of the path and at the place
    of the point; the first is stamped 0 s, and the stop time is the stamp
    of the last one. *)
Theorem timeline_samples (Cartesian3 : Type)
        (fromDegrees : R -> R -> R -> Cartesian3)
        (distance : Cartesian3 -> Cartesian3 -> R)
        (simulatedPath : list SimulatedPoint.t) (flightSpeed : R) :
  (2 <= length simulatedPath)%nat ->
  exists tl,
    animation Cartesian3 fromDegrees distance true simulatedPath flightSpeed
    = JS.Ok (Some tl) /\
    map snd (Timeline.positionSamples tl)
    = map (samplePoint Cartesian3 fromDegrees) simulatedPath /\
    (exists c0, nth_error (Timeline.positionSamples tl) 0 = Some (0, c0)) /\
    (exists c, nth_error (Timeline.positionSamples tl) (length simulatedPath - 1)
               = Some (Timeline.stopSeconds tl, c)).
Proof.
  intros Hlen.
  destruct simulatedPath as [| p0 rest]; [simpl in Hlen; lia |].
  assert (Hrest : rest <> []) by (intros ->; simpl in Hlen; lia).
  set (SPEED := JS.Math_max (1 / 10) flightSpeed).
  eexists. split; [now apply animation_closed |].
  cbn [Timeline.positionSamples Timeline.stopSeconds]. fold SPEED.
  change ((0, samplePoint Cartesian3 fromDegrees p0)
          :: map (place Cartesian3 fromDegrees)
                 (positionsFrom Cartesian3 fromDegrees distance SPEED p0 0 rest))
    with (map (place Cartesian3 fromDegrees)
              ((0, p0) :: positionsFrom Cartesian3 fromDegrees distance SPEED p0 0 rest)).
  split; [| split].
  - rewrite map_map. cbn [map place snd]. f_equal.
    rewrite <- (positions_points Cartesian3 fromDegrees distance SPEED rest p0 0) at 2.
    now rewrite map_map.
  - now exists (samplePoint Cartesian3 fromDegrees p0).
  - destruct (arrival_nth Cartesian3 fromDegrees distance SPEED rest p0 0) as [p Hp].
    exists (samplePoint Cartesian3 fromDegrees p). rewrite nth_error_map.
    cbn [length]. rewrite Nat.sub_succ, Nat.sub_0_r. now rewrite Hp.
Qed.

Lemma timeline_samples_witness :
  exists tl,
    animation (R * R * R) flatFromDegrees flatDistance true
              [SimulatedPoint.mk 0 0 10 90 false; SimulatedPoint.mk 0 1 10 90 false] 10
    = JS.Ok (Some tl) /\
    map snd (Timeline.positionSamples tl)
    = map (samplePoint (R * R * R) flatFromDegrees)
          [SimulatedPoint.mk 0 0 10 90 false; SimulatedPoint.mk 0 1 10 90 false] /\
    (exists c0, nth_error (Timeline.positionSamples tl) 0 = Some (0, c0)) /\
    (exists c, nth_error (Timeline.positionSamples tl) (2 - 1)
               = Some (Timeline.stopSeconds tl, c)).
Proof.
  apply (timeline_samples (R * R * R) flatFromDegrees flatDistance
           [SimulatedPoint.mk 0 0 10 90 false; SimulatedPoint.mk 0 1 10 90 false] 10).
  simpl. lia.
Defined.

(** X30. The ring previewed around an orbit waypoint (cosine of its
    latitude not zero) has 73 vertices, all at the altitude of the
    waypoint, and starts due north of the centre, at the latitude
    [lat + orbitRadius / 111320]. *)
Theorem preview_ring_vertices (Cartesian3 : Type)
        (fromDegrees : R -> R -> R -> Cartesian3) (wp : Waypoint.t) :
  cos (Cesium.toRadians (Waypoint.lat wp)) <> 0 ->
  exists vertices,
    orbitPreview Cartesian3 fromDegrees wp =
    map (toCartesian Cartesian3 fromDegrees) vertices /\
    length vertices = 73%nat /\
    nth_error vertices 0 =
    Some (Waypoint.lon wp, Waypoint.lat wp + Waypoint.orbitRadius wp / 111320,
          Waypoint.alt wp) /\
    Forall (fun vertex => snd vertex = Waypoint.alt wp) vertices.
Proof.
  intros Hcos.
  exists (map (fun k => previewVertex wp (0 + 5 * k)) (seq 0 73)).
  split; [| split; [| split]].
  - unfold orbitPreview.
    rewrite (previewLoop_passes Cartesian3 fromDegrees wp 73 0 []).
    + now rewrite map_map.
    + intros k Hk. lia.
    + lia.
  - now rewrite length_map, length_seq.
  - rewrite nth_error_map, nth_error_seq. cbn [Nat.ltb Nat.leb option_map].
    f_equal. unfold previewVertex. cbn [Nat.add Nat.mul INR].
    rewrite toRadians_0, cos_0, sin_0.
    replace (Waypoint.lon wp
             + Waypoint.orbitRadius wp * 0
               / (111320 * cos (Cesium.toRadians (Waypoint.lat wp))))
      with (Waypoint.lon wp) by (field; assumption).
    replace (Waypoint.orbitRadius wp * 1 / 111320)
      with (Waypoint.orbitRadius wp / 111320) by field.
    reflexivity.
  - apply Forall_map, Forall_forall. intros k _. reflexivity.
Qed.

Lemma preview_ring_vertices_witness :
  exists vertices,
    orbitPreview (R * R * R) flatFromDegrees Scenario.orbit30 =
    map (toCartesian (R * R * R) flatFromDegrees) vertices /\
    length vertices = 73%nat /\
    nth_error vertices 0 = Some (0, 0 + 30 / 111320, 10) /\
    Forall (fun vertex => snd vertex = 10) vertices.
Proof.
  apply (preview_ring_vertices (R * R * R) flatFromDegrees Scenario.orbit30).
  cbn [Scenario.orbit30 Waypoint.lat]. rewrite toRadians_0, cos_0. lra.
Defined.
